(** * DiamondFinder (hacks/diamonds.py): a shallow embedding and its properties

    The scanner of [hacks/diamonds.py] is embedded as pure functions over an
    explicit world.  Python strings are lists of code points, the bytearray
    run buffer is a list of byte values updated in place by index, the
    [defaultdict(list)] result store is a finite map from diamond text to the
    list of tags, and an exception is a [Raise] result that still carries the
    world as the interrupted call left it. *)

From Stdlib Require Import ZArith NArith Ascii String.
From stdpp Require Import gmap list.

Open Scope Z_scope.

(** ** Strings, tags, exceptions *)

(** A Python [str] is a sequence of Unicode code points; [ord] is the
    identity on this representation. *)
Abbreviation str := (list N).

(** ASCII literals, for examples. *)
Definition lit (s : string) : str := N_of_ascii <$> list_ascii_of_string s.

(** The line feed character, the separator of [str.split] in [scantext]. *)
Definition LF : N := 10%N.

(** One component of a tag tuple: a path or caller label, or a line number. *)
Inductive component :=
  | CStr (s : str)
  | CInt (n : Z).

Abbreviation tag := (list component).

#[global] Instance component_eq_dec : EqDecision component.
Proof. solve_decision. Defined.

Inductive exn :=
  | ValueError
  | UnicodeDecodeError
  | OSError.

(** The outcome of a call that mutates a state: normal return, or an
    exception; both carry the state the call left behind. *)
Inductive result (S : Type) :=
  | Ok (s : S)
  | Raise (e : exn) (s : S).
Arguments Ok {S} s.
Arguments Raise {S} e s.

Definition final {S} (r : result S) : S :=
  match r with Ok s => s | Raise _ s => s end.

Definition returns {S} (r : result S) : bool :=
  match r with Ok _ => true | Raise _ _ => false end.

Definition bind {S T} (r : result S) (k : S -> result T) (abort : S -> T)
  : result T :=
  match r with
  | Ok s => k s
  | Raise e s => Raise e (abort s)
  end.

(** A [for] loop over a list whose body may raise. *)
Fixpoint for_each {A S} (body : A -> S -> result S) (l : list A) (s : S)
  : result S :=
  match l with
  | [] => Ok s
  | x :: l' =>
      match body x s with
      | Ok s' => for_each body l' s'
      | Raise e s' => Raise e s'
      end
  end.

(** [enumerate(l, start)]. *)
Fixpoint enumerate {A} (start : Z) (l : list A) : list (Z * A) :=
  match l with
  | [] => []
  | x :: l' => (start, x) :: enumerate (start + 1) l'
  end.

(** ** [bytes.decode('utf-8')], strict

    The well-formed byte sequences of the Unicode standard: no overlong
    forms, no surrogates, nothing above U+10FFFF. *)

Definition in_range (lo hi b : N) : bool := ((lo <=? b) && (b <=? hi))%N.

Definition continuation (b : N) : bool := in_range 128 191 b.

Definition second_lo (b1 : N) : N :=
  if (b1 =? 224)%N then 160%N else if (b1 =? 240)%N then 144%N else 128%N.

Definition second_hi (b1 : N) : N :=
  if (b1 =? 237)%N then 159%N else if (b1 =? 244)%N then 143%N else 191%N.

Fixpoint utf8_decode (bs : list N) : option str :=
  match bs with
  | [] => Some []
  | b1 :: r1 =>
      if (b1 <? 128)%N then cons b1 <$> utf8_decode r1
      else if in_range 194 223 b1 then
        match r1 with
        | b2 :: r2 =>
            if continuation b2
            then cons ((b1 - 192) * 64 + (b2 - 128))%N <$> utf8_decode r2
            else None
        | _ => None
        end
      else if in_range 224 239 b1 then
        match r1 with
        | b2 :: b3 :: r3 =>
            if in_range (second_lo b1) (second_hi b1) b2 && continuation b3
            then cons ((b1 - 224) * 4096 + (b2 - 128) * 64 + (b3 - 128))%N
                   <$> utf8_decode r3
            else None
        | _ => None
        end
      else if in_range 240 244 b1 then
        match r1 with
        | b2 :: b3 :: b4 :: r4 =>
            if in_range (second_lo b1) (second_hi b1) b2
               && continuation b3 && continuation b4
            then cons ((b1 - 240) * 262144 + (b2 - 128) * 4096
                       + (b3 - 128) * 64 + (b4 - 128))%N
                   <$> utf8_decode r4
            else None
        | _ => None
        end
      else None
  end.

(** ** The engine *)

(** The attributes [__init__] stores and no method assigns afterwards. *)
Record Config := {
  chars : str;
  minlen : Z;
  maxlen : Z;
  notify_diamonds : bool
}.

(** Everything a scan can change.  [mapping] is the content of the defaultdict
    (the engine itself); [stdout], [warnings] and [opened] record the calls of
    [print], [warnings.warn] and [open].  [history] is a history variable:
    the arguments of every [add_diamond] call so far, in order.  No operation
    reads it. *)
Record World := {
  mapping : gmap (list N) (list tag);
  stdout : list (str * tag);
  warnings : list (Z * tag);
  opened : list str;
  history : list (str * tag)
}.

Definition empty_world : World :=
  {| mapping := ∅; stdout := []; warnings := []; opened := []; history := [] |}.

(** [DiamondFinder.__init__]: stores its four arguments and starts from an
    empty mapping.  There is no [raise] in it. *)
Definition init (chars : str) (minlen maxlen : Z) (notify_diamonds : bool)
  : exn + (Config * World) :=
  inr ({| chars := chars; minlen := minlen; maxlen := maxlen;
          notify_diamonds := notify_diamonds |}, empty_world).

(** [add_diamond]: [self[diamond]] creates the empty list on a missing key,
    [append] extends it. *)
Definition add_diamond (cfg : Config) (diamond : str) (t : tag) (w : World)
  : World :=
  {| mapping := <[diamond := default [] (mapping w !! diamond) ++ [t]]> (mapping w);
     stdout := if notify_diamonds cfg then stdout w ++ [(diamond, t)]
               else stdout w;
     warnings := warnings w;
     opened := opened w;
     history := history w ++ [(diamond, t)] |}.

(** The local variables of [scanline] together with the world. *)
Record LineState := {
  diamond_array : list N;
  index : nat;
  world : World
}.

(** The body of [for char in line]. *)
Definition scanline_body (cfg : Config) (t : tag) (char : N) (st : LineState)
  : result LineState :=
  if bool_decide (char ∈ chars cfg) then
    (* index >= maxlen: continue *)
    if bool_decide (maxlen cfg ≤ Z.of_nat (index st)) then Ok st
    (* diamond_array[index] = ord(char): a byte must be in range(0, 256) *)
    else if bool_decide (char < 256)%N then
      Ok {| diamond_array := <[index st := char]> (diamond_array st);
            index := S (index st);
            world := world st |}
    else Raise ValueError st
  else
    if bool_decide (minlen cfg ≤ Z.of_nat (index st) ≤ maxlen cfg) then
      (* diamond_array[:index].decode('utf-8') *)
      match utf8_decode (take (index st) (diamond_array st)) with
      | Some diamond =>
          Ok {| diamond_array := diamond_array st;
                index := 0;
                world := add_diamond cfg diamond t (world st) |}
      | None => Raise UnicodeDecodeError st
      end
    else
      Ok {| diamond_array := diamond_array st;
            index := 0;
            world := world st |}.

(** The locals when the loop of [scanline] starts: a zeroed buffer of
    [maxlen] bytes and [index = 0]. *)
Definition line_start (cfg : Config) (w : World) : LineState :=
  {| diamond_array := replicate (Z.to_nat (maxlen cfg)) 0%N;
     index := 0;
     world := w |}.

(** [scanline]: [bytearray(maxlen)] raises [ValueError] on a negative
    length; otherwise the loop runs over the characters of the line. *)
Definition scanline (cfg : Config) (line : str) (t : tag) (w : World)
  : result World :=
  if bool_decide (maxlen cfg < 0) then Raise ValueError w
  else
    bind (for_each (scanline_body cfg t) line (line_start cfg w))
         (fun st => Ok (world st)) world.

(** ** Reading sources line by line *)

(** [s.split(sep)] for a one-character separator. *)
Fixpoint split_on (sep : N) (s : str) : list str :=
  match s with
  | [] => [[]]
  | c :: s' =>
      if bool_decide (c = sep) then [] :: split_on sep s'
      else
        match split_on sep s' with
        | piece :: pieces => (c :: piece) :: pieces
        | [] => [[c]]
        end
  end.

(** [scantext], over the line scanner it dispatches to through [self]. *)
Definition scantext_with {S} (scan_line : str -> tag -> S -> result S)
    (text : str) (t : tag) (s : S) : result S :=
  let lines := split_on LF text in
  for_each (fun '(count, line) =>
              let linetag := t ++ [CInt count] in
              scan_line (line ++ [LF]) linetag)
           (enumerate 1 lines) s.

Definition scantext (cfg : Config) : str -> tag -> World -> result World :=
  scantext_with (scanline cfg).

(** What one call of [stream.readline()] does: it returns a string (the
    empty string at the end of the stream) or raises [UnicodeDecodeError]. *)
Inductive readline_outcome :=
  | Line (s : str)
  | DecodeFailure.

(** A text stream, as the outcomes of its successive [readline] calls; once
    they are used up every further call returns the empty string. *)
Abbreviation stream := (list readline_outcome).

(** [warnings.warn(f'Failed to decode line {count} of {tag}', UnicodeWarning)] *)
Definition warn (count : Z) (t : tag) (w : World) : World :=
  {| mapping := mapping w; stdout := stdout w;
     warnings := warnings w ++ [(count, t)];
     opened := opened w; history := history w |}.

(** The [while True] loop of [scanstream]; [count] is advanced in the
    [finally] clause, on every path that does not leave the loop. *)
Fixpoint scanstream_loop (cfg : Config) (s : stream) (t : tag) (count : Z)
    (w : World) : result World :=
  match s with
  | [] => Ok w
  | DecodeFailure :: s' => scanstream_loop cfg s' t (count + 1) (warn count t w)
  | Line line :: s' =>
      match line with
      | [] => Ok w
      | _ =>
          let linetag := t ++ [CInt count] in
          match scanline cfg line linetag w with
          | Ok w' => scanstream_loop cfg s' t (count + 1) w'
          | Raise e w' => Raise e w'
          end
      end
  end.

Definition scanstream (cfg : Config) (s : stream) (t : tag) (w : World)
  : result World :=
  scanstream_loop cfg s t 1 w.

(** ** Files and directories *)

Definition SLASH : N := 47%N.
Definition DOT : N := 46%N.

(** [pathlib.PurePosixPath(file).name]: the last path component, empty
    components and [.] dropped. *)
Definition path_name (file : str) : str :=
  List.last (List.filter (fun p => negb (bool_decide (p = []) || bool_decide (p = [DOT])))
               (split_on SLASH file)) [].

(** [s.rfind(c)], [None] for -1. *)
Fixpoint rfind (c : N) (s : str) : option nat :=
  match s with
  | [] => None
  | x :: s' =>
      match rfind c s' with
      | Some i => Some (S i)
      | None => if bool_decide (x = c) then Some 0%nat else None
      end
  end.

(** [pathlib.PurePosixPath(file).suffix]. *)
Definition suffix (file : str) : str :=
  let name := path_name file in
  match rfind DOT name with
  | Some i =>
      if bool_decide (0 < i < length name - 1)%nat then drop i name else []
  | None => []
  end.

(** The [include] and [exclude] arguments: absent, one string, or a list. *)
Inductive ext_filter :=
  | FNone
  | FStr (s : str)
  | FList (l : list str).

Definition check_extension (file : str) (include exclude : ext_filter) : bool :=
  let extension := suffix file in
  let listed (f : ext_filter) :=
    match f with
    | FNone => false
    | FStr s => bool_decide (extension ∈ [s])
    | FList l => bool_decide (extension ∈ l)
    end in
  if listed include then false
  else if listed exclude then false
  else true.

(** The operating system, as far as the scanner calls it: [open] (absent for
    a path that cannot be opened), [os.path.relpath] (absent where it raises
    [ValueError]), [os.walk], [os.listdir], [os.path.isfile] and
    [os.path.join]. *)
Record Env := {
  os_open : str -> option stream;
  os_path_relpath : str -> str -> option str;
  os_walk : str -> list (str * list str * list str);
  os_listdir : str -> option (list str);
  os_path_isfile : str -> bool;
  os_path_join : str -> str -> str
}.

Definition open_call (file : str) (w : World) : World :=
  {| mapping := mapping w; stdout := stdout w; warnings := warnings w;
     opened := opened w ++ [file]; history := history w |}.

Definition scanfile (cfg : Config) (env : Env) (file : str)
    (include exclude : ext_filter) (relpath : option str) (t : tag) (w : World)
  : result World :=
  if negb (check_extension file include exclude) then Ok w
  else
    let filetag :=
      match relpath with
      | None => Some file
      | Some base => os_path_relpath env file base
      end in
    match filetag with
    | None => Raise ValueError w
    | Some filetag =>
        let t := t ++ [CStr filetag] in
        match os_open env file with
        | None => Raise OSError (open_call file w)
        | Some s => scanstream cfg s t (open_call file w)
        end
    end.

Definition scandir (cfg : Config) (env : Env) (directory : str) (deep : bool)
    (t : tag) (include exclude : ext_filter) (w : World) : result World :=
  let dirtag := t ++ [CStr directory] in
  if deep then
    for_each (fun '(root, dirs, files) =>
                for_each (fun file =>
                            scanfile cfg env (os_path_join env root file)
                              include exclude (Some directory) dirtag)
                         files)
             (os_walk env directory) w
  else
    match os_listdir env directory with
    | None => Raise OSError w
    | Some entries =>
        for_each (fun file =>
                    let fullpath := os_path_join env directory file in
                    if os_path_isfile env fullpath
                    then scanfile cfg env fullpath include exclude
                           (Some directory) dirtag
                    else Ok)
                 entries w
    end.

(** The arguments of the public [scan]. *)
Inductive source :=
  | SourceNone
  | SourceStr (text : str)
  | SourceStream (s : stream)
  | SourceOther.

Inductive tag_arg :=
  | TagNone
  | TagTuple (t : tag)
  | TagOther (c : component).

Definition scan (cfg : Config) (src : source) (tg : tag_arg) (w : World)
  : result World :=
  match src with
  | SourceNone => Ok w
  | _ =>
      let t := match tg with
               | TagNone => []
               | TagTuple t => t
               | TagOther c => [c]
               end in
      match src with
      | SourceStr text => scantext cfg text t w
      | SourceStream s => scanstream cfg s t w
      | _ => Ok w
      end
  end.

(** ** Sequences of scan operations *)

Inductive operation :=
  | OpScan (src : source) (tg : tag_arg)
  | OpScantext (text : str) (t : tag)
  | OpScandir (env : Env) (directory : str) (deep : bool) (t : tag)
      (include exclude : ext_filter)
  | OpScanfile (env : Env) (file : str) (include exclude : ext_filter)
      (relpath : option str) (t : tag)
  | OpScanstream (s : stream) (t : tag)
  | OpScanline (line : str) (t : tag)
  | OpAddDiamond (diamond : str) (t : tag).

Definition run (cfg : Config) (o : operation) (w : World) : result World :=
  match o with
  | OpScan src tg => scan cfg src tg w
  | OpScantext text t => scantext cfg text t w
  | OpScandir env directory deep t include exclude =>
      scandir cfg env directory deep t include exclude w
  | OpScanfile env file include exclude relpath t =>
      scanfile cfg env file include exclude relpath t w
  | OpScanstream s t => scanstream cfg s t w
  | OpScanline line t => scanline cfg line t w
  | OpAddDiamond diamond t => Ok (add_diamond cfg diamond t w)
  end.

(** The worlds an engine can be in: the one [__init__] leaves, and the one
    any operation leaves behind, whether it returned or raised. *)
Inductive reachable (cfg : Config) : World -> Prop :=
  | reachable_init : reachable cfg empty_world
  | reachable_step o w :
      reachable cfg w -> reachable cfg (final (run cfg o w)).


(** ** Vocabulary of the properties *)

Definition map_result {S T} (f : S -> T) (r : result S) : result T :=
  match r with
  | Ok s => Ok (f s)
  | Raise e s => Raise e (f s)
  end.

(** Characters that UTF-8 encodes as the single byte [ord(char)]. *)
Definition ascii (s : str) : Prop := Forall (fun c => (c < 128)%N) s.

(** All characters of [s] belong to the alphabet. *)
Definition alphabetic (cfg : Config) (s : str) : Prop :=
  Forall (fun c => c ∈ chars cfg) s.

(** [s] is empty or ends with a character outside the alphabet: a run that
    follows it is not the continuation of an earlier one. *)
Definition run_boundary (cfg : Config) (s : str) : Prop :=
  s = [] ∨ ∃ s' c, s = s' ++ [c] ∧ c ∉ chars cfg.

(** The tags recorded for [diamond], in order of recording. *)
Definition tags_of (diamond : str) (h : list (str * tag)) : list tag :=
  (filter (fun m => m.1 = diamond) h).*2.

(** One recorded match, on the mapping alone. *)
Definition record_match (m : gmap (list N) (list tag)) (dt : str * tag)
  : gmap (list N) (list tag) :=
  <[dt.1 := default [] (m !! dt.1) ++ [dt.2]]> m.

(** [replay w0 w]: the world [w0] after everything logged in [w] has
    happened to it as well. *)
Definition replay (w0 w : World) : World :=
  {| mapping := foldl record_match (mapping w0) (history w);
     stdout := stdout w0 ++ stdout w;
     warnings := warnings w0 ++ warnings w;
     opened := opened w0 ++ opened w;
     history := history w0 ++ history w |}.

Definition replay_line (w0 : World) (st : LineState) : LineState :=
  {| diamond_array := diamond_array st;
     index := index st;
     world := replay w0 (world st) |}.

(** A scan operation that acts on any world as it acts on the empty one. *)
Definition framed (f : World -> result World) : Prop :=
  ∀ w0 w, f (replay w0 w) = map_result (replay w0) (f w).

(** The loop invariant of [scanline]: the buffer keeps the length it was
    allocated with and the run length never passes it. *)
Definition buffer_ok (cfg : Config) (st : LineState) : Prop :=
  length (diamond_array st) = Z.to_nat (maxlen cfg)
  ∧ (index st ≤ Z.to_nat (maxlen cfg))%nat.

(** The mapping holds, for every text, exactly the tags recorded for it. *)
Definition grouped (w : World) : Prop :=
  ∀ d, mapping w !! d
       = match tags_of d (history w) with [] => None | ts => Some ts end.

(** The extension occurs in an [include] or [exclude] argument. *)
Definition listed (extension : str) (f : ext_filter) : Prop :=
  match f with
  | FNone => False
  | FStr s => extension = s
  | FList l => extension ∈ l
  end.

(** A line scanner that only writes down how it is called. *)
Definition note_call (line : str) (t : tag) (calls : list (str * tag))
  : result (list (str * tag)) :=
  Ok (calls ++ [(line, t)]).

(** The calls [scantext] makes: line [k] (counting from 0), with the line
    feed appended and the line number [k + 1] at the end of the tag. *)
Definition line_calls (t : tag) (lines : list str) : list (str * tag) :=
  imap (fun k line => (line ++ [LF], t ++ [CInt (Z.of_nat k + 1)])) lines.

(** [sep.join(pieces)]. *)
Fixpoint join (sep : N) (pieces : list str) : str :=
  match pieces with
  | [] => []
  | [piece] => piece
  | piece :: pieces' => piece ++ sep :: join sep pieces'
  end.

(** The configuration of [main] and of the module docstring. *)
Definition hexcfg : Config :=
  {| chars := lit "0123456789abcdef"; minlen := 24; maxlen := 26;
     notify_diamonds := false |}.

(** Small configurations for worked inputs: the alphabet [a]; the alphabet
    of the one character U+00E9; the alphabet [a] with the line feed. *)
Definition small_cfg : Config :=
  {| chars := lit "a"; minlen := 1; maxlen := 2; notify_diamonds := false |}.

Definition E_ACUTE : N := 233%N.

Definition accent_cfg : Config :=
  {| chars := [E_ACUTE]; minlen := 1; maxlen := 5; notify_diamonds := false |}.

Definition newline_cfg : Config :=
  {| chars := lit "a" ++ [LF]; minlen := 1; maxlen := 5;
     notify_diamonds := false |}.

(** A file system for worked inputs: every directory holds the files
    [a.txt] and [b.lock], and every file is one line with a run of 24
    hexadecimal digits. *)
Definition demo_env : Env :=
  {| os_open := fun _ => Some [Line (lit "key 0123456789abcdef01234567" ++ [LF])];
     os_path_relpath := fun file base => Some (drop (length base + 1) file);
     os_walk := fun directory => [(directory, [], [lit "a.txt"; lit "b.lock"])];
     os_listdir := fun _ => Some [lit "a.txt"; lit "b.lock"];
     os_path_isfile := fun _ => true;
     os_path_join := fun a b => a ++ [SLASH] ++ b |}.

(** The file system of [demo_env] with a third file [c.txt], where [open]
    refuses [b.lock]. *)
Definition locked_env : Env :=
  {| os_open := fun file =>
       if bool_decide (path_name file = lit "b.lock") then None
       else Some [Line (lit "key 0123456789abcdef01234567" ++ [LF])];
     os_path_relpath := fun file base => Some (drop (length base + 1) file);
     os_walk := fun directory =>
       [(directory, [], [lit "a.txt"; lit "b.lock"; lit "c.txt"])];
     os_listdir := fun _ => Some [lit "a.txt"; lit "b.lock"; lit "c.txt"];
     os_path_isfile := fun _ => true;
     os_path_join := fun a b => a ++ [SLASH] ++ b |}.

(** The file system of [demo_env] where no file ends with a newline: every
    file is one line, a run of 24 hexadecimal digits, and [readline] returns
    it as it stands. *)
Definition bare_env : Env :=
  {| os_open := fun _ => Some [Line (lit "0123456789abcdef01234567")];
     os_path_relpath := fun file base => Some (drop (length base + 1) file);
     os_walk := fun directory => [(directory, [], [lit "a.txt"; lit "b.txt"])];
     os_listdir := fun _ => Some [lit "a.txt"; lit "b.txt"];
     os_path_isfile := fun _ => true;
     os_path_join := fun a b => a ++ [SLASH] ++ b |}.

(** ** The range in which the model follows the interpreter *)

(** The largest value of the index type of the interpreter ([sys.maxsize] on
    a 64-bit platform).  [bytearray(maxlen)] allocates [maxlen + 1] bytes
    when [0 <= maxlen < PY_SSIZE_T_MAX], and raises [ValueError] when
    [-PY_SSIZE_T_MAX - 1 <= maxlen < 0].  For any other [maxlen] it raises,
    before a character is read, [OverflowError] (or [MemoryError] at
    [PY_SSIZE_T_MAX] itself), which [scanline] above does not model.
    Properties that state a normal return, or the [ValueError], keep [maxlen]
    in these ranges by a hypothesis. *)
Definition PY_SSIZE_T_MAX : Z := 2 ^ 63 - 1.

(** A path that the calls of the operating system take: no NUL character
    and no surrogate code point.  On any other path [open], [os.listdir] and
    [os.walk] raise [ValueError], which [Env] does not model; properties that
    state what these calls raise are about such paths. *)
Definition fs_name (path : str) : Prop :=
  Forall (fun c => c ≠ 0%N ∧ ¬ (55296 ≤ c ≤ 57343)%N) path.

(** The operations that are given no stream object.  A [stream] stands for
    what an open stream object yields from where it is: [readline] on a closed
    stream raises [ValueError], which is no [readline_outcome].  A stream
    object is at its end after it was scanned, while the list that stands for
    it here can be read again; properties about running an operation twice,
    or two operations in either order, are about these operations. *)
Definition holds_no_stream (o : operation) : bool :=
  match o with
  | OpScan (SourceStream _) _ => false
  | OpScanstream _ _ => false
  | _ => true
  end.

(** ** Vocabulary of the further properties *)

(** The runs of alphabet characters of a line that a character outside the
    alphabet ends, in the order of the line; [cur] is the run read so far.
    A run that the line ends without a terminator is not among them. *)
Fixpoint terminated_runs (cfg : Config) (cur line : str) : list str :=
  match line with
  | [] => []
  | c :: line' =>
      if bool_decide (c ∈ chars cfg) then terminated_runs cfg (cur ++ [c]) line'
      else cur :: terminated_runs cfg [] line'
  end.

(** The texts a line is to yield: every terminated run, cut to its first
    [maxlen] characters, whose cut length is within the bounds. *)
Definition diamonds_of (cfg : Config) (line : str) : list str :=
  filter (fun d => minlen cfg ≤ Z.of_nat (length d) ≤ maxlen cfg)
    (take (Z.to_nat (maxlen cfg)) <$> terminated_runs cfg [] line).

(** Recording the texts [ds] one after the other under the tag [t]. *)
Definition record_all (cfg : Config) (t : tag) (ds : list str) (w : World)
  : World :=
  foldl (fun w d => add_diamond cfg d t w) w ds.

(** A text that the line scanner can record: the UTF-8 decoding of alphabet
    characters, byte-sized, as many as the bounds admit. *)
Definition diamond_like (cfg : Config) (d : str) : Prop :=
  ∃ bytes, alphabetic cfg bytes
           ∧ minlen cfg ≤ Z.of_nat (length bytes) ≤ maxlen cfg
           ∧ utf8_decode bytes = Some d.

(** From [w] to [w'] the log [proj] has only grown, by entries that
    satisfy [Q]. *)
Definition appends {A} (proj : World -> list A) (Q : A -> Prop) (w w' : World)
  : Prop :=
  ∃ new, proj w' = proj w ++ new ∧ Forall Q new.

(** The operations that scan, as opposed to recording a match directly. *)
Definition is_scan (o : operation) : bool :=
  match o with
  | OpAddDiamond _ _ => false
  | _ => true
  end.

(** The worlds of an engine that is driven through its scan methods only. *)
Inductive scanned (cfg : Config) : World -> Prop :=
  | scanned_init : scanned cfg empty_world
  | scanned_step o w :
      is_scan o = true -> scanned cfg w -> scanned cfg (final (run cfg o w)).

(** The numbers of the [readline] calls that fail, up to the end of the
    stream, the first call having the number [count]. *)
Fixpoint failed_reads (count : Z) (s : stream) : list Z :=
  match s with
  | [] => []
  | DecodeFailure :: s' => count :: failed_reads (count + 1) s'
  | Line [] :: _ => []
  | Line _ :: s' => failed_reads (count + 1) s'
  end.

(** The paths [scandir] hands to [scanfile], in order; absent when
    [os.listdir] raises. *)
Definition visited (env : Env) (directory : str) (deep : bool)
  : option (list str) :=
  if deep then
    Some (concat ((fun entry : str * list str * list str =>
                     os_path_join env entry.1.1 <$> entry.2)
                    <$> os_walk env directory))
  else
    match os_listdir env directory with
    | None => None
    | Some entries =>
        Some (List.filter (os_path_isfile env)
                (os_path_join env directory <$> entries))
    end.

(** Two states of the line loop that differ at most in the part of the
    buffer behind the current run. *)
Definition same_run (st st' : LineState) : Prop :=
  index st = index st'
  ∧ world st = world st'
  ∧ length (diamond_array st) = length (diamond_array st')
  ∧ take (index st) (diamond_array st) = take (index st') (diamond_array st').

(** The form of a non-empty [suffix]: a dot, then at least one character,
    none of them a dot or a slash. *)
Definition extension_shaped (e : str) : Prop :=
  ∃ rest, e = DOT :: rest ∧ rest ≠ [] ∧ (DOT ∉ rest) ∧ (SLASH ∉ rest).

(** * Properties *)

(** ** Worked examples *)

Example scanline_spec_example :
  scanline hexcfg (lit "id=deadbeefdeadbeefdeadbeef00 end" ++ [LF]) [CInt 1]
    empty_world
  = Ok (add_diamond hexcfg (lit "deadbeefdeadbeefdeadbeef00") [CInt 1]
          empty_world).
Proof. vm_compute. reflexivity. Qed.

Example scanline_one_below_minlen :
  scanline hexcfg (lit "0123456789abcdef0123456" ++ [LF]) [CInt 1] empty_world
  = Ok empty_world.
Proof. vm_compute. reflexivity. Qed.

Example scandir_spec_example :
  scandir hexcfg demo_env (lit "repo") true [] FNone (FList [lit ".lock"])
    empty_world
  = Ok {| mapping := {[ lit "0123456789abcdef01234567"
                        := [[CStr (lit "repo"); CStr (lit "a.txt"); CInt 1]] ]};
          stdout := [];
          warnings := [];
          opened := [lit "repo/a.txt"];
          history := [(lit "0123456789abcdef01234567",
                       [CStr (lit "repo"); CStr (lit "a.txt"); CInt 1])] |}.
Proof. by vm_compute. Qed.

Example suffix_lock : suffix (lit "x.lock") = lit ".lock".
Proof. reflexivity. Qed.

Example suffix_nested : suffix (lit "a/b.d/c.tar.gz") = lit ".gz".
Proof. reflexivity. Qed.

Example suffix_hidden : suffix (lit "dir/.bashrc") = [].
Proof. reflexivity. Qed.

Example suffix_trailing_dot : suffix (lit "dir/name.") = [].
Proof. reflexivity. Qed.

Example split_example :
  split_on LF (lit "ab" ++ [LF] ++ [LF] ++ lit "c") = [lit "ab"; []; lit "c"].
Proof. reflexivity. Qed.

Example utf8_two_bytes : utf8_decode [195; 169]%N = Some [233%N].
Proof. reflexivity. Qed.

Example utf8_lone_byte : utf8_decode [233%N] = None.
Proof. reflexivity. Qed.

(** ** Loops and results *)

Lemma for_each_app {A S} (body : A -> S -> result S) l1 l2 s :
  for_each body (l1 ++ l2) s
  = match for_each body l1 s with
    | Ok s' => for_each body l2 s'
    | Raise e s' => Raise e s'
    end.
Proof.
  revert s. induction l1 as [|x l1 IH]; intros s; simpl; [done|].
  destruct (body x s); [apply IH | done].
Qed.

(** A loop commutes with a state transformation its body commutes with. *)
Lemma for_each_natural {A S} (g : S -> S) (body : A -> S -> result S) l :
  (∀ x s, body x (g s) = map_result g (body x s)) ->
  ∀ s, for_each body l (g s) = map_result g (for_each body l s).
Proof.
  intros Hbody. induction l as [|x l IH]; intros s; simpl; [done|].
  rewrite Hbody. destruct (body x s); simpl; [apply IH | done].
Qed.

Lemma enumerate_app {A} (l1 l2 : list A) start :
  enumerate start (l1 ++ l2)
  = enumerate start l1 ++ enumerate (start + Z.of_nat (length l1)) l2.
Proof.
  revert start. induction l1 as [|x l1 IH]; intros start; simpl.
  - by rewrite Z.add_0_r.
  - rewrite IH. do 3 f_equal. lia.
Qed.

Lemma utf8_decode_ascii bs : ascii bs -> utf8_decode bs = Some bs.
Proof.
  induction 1 as [|b bs Hb _ IH]; simpl; [done|].
  apply N.ltb_lt in Hb. by rewrite Hb, IH.
Qed.

(** ** The line scanner *)

Section Scanline.
Context (cfg : Config) (t : tag).
Implicit Types (st : LineState) (run line : str) (c : N) (w : World).

Lemma body_terminator c st :
  c ∉ chars cfg ->
  scanline_body cfg t c st
  = if bool_decide (minlen cfg ≤ Z.of_nat (index st) ≤ maxlen cfg) then
      match utf8_decode (take (index st) (diamond_array st)) with
      | Some diamond =>
          Ok {| diamond_array := diamond_array st; index := 0;
                world := add_diamond cfg diamond t (world st) |}
      | None => Raise UnicodeDecodeError st
      end
    else Ok {| diamond_array := diamond_array st; index := 0;
               world := world st |}.
Proof. intros Hc. unfold scanline_body. by rewrite bool_decide_false. Qed.

Lemma body_buffer_ok c st :
  buffer_ok cfg st -> buffer_ok cfg (final (scanline_body cfg t c st)).
Proof.
  intros [Hlen Hidx]. unfold scanline_body, buffer_ok.
  repeat case_bool_decide; simpl; try done.
  - rewrite length_insert. split; [done | lia].
  - destruct (utf8_decode _); simpl; [split; [done | lia] | done].
  - split; [done | lia].
Qed.

Lemma loop_buffer_ok line st :
  buffer_ok cfg st -> buffer_ok cfg (final (for_each (scanline_body cfg t) line st)).
Proof.
  revert st. induction line as [|c line IH]; intros st Hst; simpl; [done|].
  pose proof (body_buffer_ok c st Hst) as Hc.
  destruct (scanline_body cfg t c st); simpl in *; [by apply IH | done].
Qed.

(** After a character outside the alphabet the run length is 0. *)
Lemma loop_boundary line st st' :
  run_boundary cfg line -> index st = 0%nat ->
  for_each (scanline_body cfg t) line st = Ok st' -> index st' = 0%nat.
Proof.
  intros [->|(line' & c & -> & Hc)] Hst; simpl.
  - by intros [= <-].
  - rewrite for_each_app.
    destruct (for_each _ line' st) as [st1|]; [|done]. simpl.
    rewrite (body_terminator _ _ Hc).
    case_bool_decide; [destruct (utf8_decode _)|]; by intros [= <-].
Qed.

(** Inside a run nothing is recorded, whether the loop goes on or raises. *)
Lemma run_quiet run st :
  alphabetic cfg run ->
  match for_each (scanline_body cfg t) run st with
  | Ok st' =>
      world st' = world st ∧ (index st' ≤ index st + length run)%nat
  | Raise e st' => world st' = world st
  end.
Proof.
  intros Hrun. revert st.
  induction Hrun as [|c run Hc _ IH]; intros st; simpl; [split; [done | lia]|].
  unfold scanline_body at 1. rewrite (bool_decide_true _ Hc).
  case_bool_decide.
  - specialize (IH st). destruct (for_each _ run st); [|done].
    split; [tauto | lia].
  - case_bool_decide; [|done].
    match goal with |- context [for_each _ run ?s] => specialize (IH s) end.
    simpl in IH. destruct (for_each _ run _); [|done].
    split; [tauto | lia].
Qed.

(** A run of byte-sized characters is buffered up to the capacity of the
    buffer and is cut there. *)
Lemma run_buffered run st :
  alphabetic cfg run -> Forall (fun c => (c < 256)%N) run -> buffer_ok cfg st ->
  ∃ st',
    for_each (scanline_body cfg t) run st = Ok st'
    ∧ buffer_ok cfg st'
    ∧ world st' = world st
    ∧ index st'
      = Nat.min (index st + length run)%nat (Z.to_nat (maxlen cfg))
    ∧ take (index st') (diamond_array st')
      = take (index st) (diamond_array st)
        ++ take (Z.to_nat (maxlen cfg) - index st) run.
Proof.
  intros Hrun. revert st.
  induction Hrun as [|c run Hc _ IH]; intros st Hbyte [Hlen Hidx].
  - exists st. simpl. rewrite take_nil, app_nil_r. repeat split; try done. lia.
  - apply Forall_cons in Hbyte as [Hb Hbyte]. simpl.
    unfold scanline_body at 1. rewrite (bool_decide_true _ Hc).
    case_bool_decide as Hfull.
    + destruct (IH st Hbyte) as (st' & -> & Hok & Hw & Hi & Htake); [done|].
      exists st'. do 3 (split; [done|]). split; [lia|].
      rewrite Htake.
      replace (Z.to_nat (maxlen cfg) - index st)%nat with 0%nat by lia.
      by rewrite !take_0.
    + rewrite (bool_decide_true _ Hb).
      match goal with |- context [for_each _ run ?s] =>
        destruct (IH s Hbyte) as (st' & -> & Hok & Hw & Hi & Htake) end.
      { split; simpl; [by rewrite length_insert | lia]. }
      cbn [index diamond_array world] in *.
      exists st'. do 3 (split; [done|]). split; [lia|].
      rewrite Htake.
      replace (Z.to_nat (maxlen cfg) - index st)%nat
        with (S (Z.to_nat (maxlen cfg) - S (index st)))%nat by lia.
      rewrite firstn_cons, (take_S_r _ _ c).
      * by rewrite take_insert_ge by lia; rewrite <- app_assoc.
      * apply list_lookup_insert_eq. lia.
Qed.
End Scanline.

Section ScanlineRuns.
Context (cfg : Config) (t : tag).
Implicit Types (run pre line : str) (c : N) (w : World).

Lemma start_buffer_ok w : buffer_ok cfg (line_start cfg w).
Proof. split; simpl; [by rewrite length_replicate | lia]. Qed.

Lemma scanline_negative_maxlen line w :
  maxlen cfg < 0 -> scanline cfg line t w = Raise ValueError w.
Proof. intros H. unfold scanline. by rewrite bool_decide_true. Qed.

Lemma scanline_loop line w :
  0 ≤ maxlen cfg ->
  scanline cfg line t w
  = bind (for_each (scanline_body cfg t) line (line_start cfg w))
      (fun st => Ok (world st)) world.
Proof. intros H. unfold scanline. by rewrite bool_decide_false by lia. Qed.

Lemma scanline_returned line w w1 :
  scanline cfg line t w = Ok w1 ->
  0 ≤ maxlen cfg
  ∧ ∃ st, for_each (scanline_body cfg t) line (line_start cfg w) = Ok st
          ∧ world st = w1 ∧ buffer_ok cfg st.
Proof.
  unfold scanline. case_bool_decide as Hneg; [done|]. intros Hret.
  split; [lia|].
  pose proof (loop_buffer_ok cfg t line (line_start cfg w) (start_buffer_ok w)) as Hok.
  destruct (for_each _ line (line_start cfg w)) as [st|]; [|done].
  injection Hret as <-. by exists st.
Qed.

(** A run at the end of a line that no terminator follows records nothing. *)
Lemma scanline_unterminated pre run w :
  alphabetic cfg run ->
  final (scanline cfg (pre ++ run) t w) = final (scanline cfg pre t w).
Proof.
  intros Hrun. unfold scanline. case_bool_decide; [done|].
  rewrite for_each_app.
  destruct (for_each _ pre (line_start cfg w)) as [st|]; [|done]. simpl.
  pose proof (run_quiet cfg t run st Hrun) as Hq.
  destruct (for_each _ run st); simpl; [tauto | done].
Qed.

(** What the terminator after a run does: the run is cut at [maxlen]
    characters, and it is recorded when its cut length is in the bounds and
    its bytes decode. *)
Lemma scanline_trailing_run pre run c w w1 :
  run_boundary cfg pre -> alphabetic cfg run ->
  Forall (fun c => (c < 256)%N) run -> c ∉ chars cfg ->
  scanline cfg pre t w = Ok w1 ->
  scanline cfg (pre ++ run ++ [c]) t w
  = let k := Nat.min (length run) (Z.to_nat (maxlen cfg)) in
    if bool_decide (minlen cfg ≤ Z.of_nat k ≤ maxlen cfg) then
      match utf8_decode (take k run) with
      | Some diamond => Ok (add_diamond cfg diamond t w1)
      | None => Raise UnicodeDecodeError w1
      end
    else Ok w1.
Proof.
  intros Hpre Hrun Hbyte Hc Hret.
  apply scanline_returned in Hret as (Hmax & st0 & Hst0 & <- & Hok).
  pose proof (loop_boundary cfg t pre (line_start cfg w) st0 Hpre eq_refl Hst0) as Hzero.
  rewrite scanline_loop by done.
  rewrite for_each_app, Hst0, for_each_app.
  destruct (run_buffered cfg t run st0 Hrun Hbyte Hok)
    as (st1 & -> & _ & Hw & Hi & Htake).
  simpl. rewrite (body_terminator _ _ _ _ Hc).
  rewrite Hzero in Hi, Htake. rewrite take_0, Nat.sub_0_r in Htake.
  simpl in Hi, Htake. rewrite Hi in *.
  assert (take (Nat.min (length run) (Z.to_nat (maxlen cfg))) run
          = take (Z.to_nat (maxlen cfg)) run) as ->.
  { destruct (decide (length run ≤ Z.to_nat (maxlen cfg))%nat).
    - rewrite Nat.min_l by done. by rewrite !take_ge by lia.
    - by rewrite Nat.min_r by lia. }
  rewrite Htake, Hw.
  case_bool_decide; [destruct (utf8_decode _)|]; simpl; by rewrite ?Hw.
Qed.

(** A terminated run shorter than [minlen] records nothing. *)
Lemma scanline_short_run run c w :
  alphabetic cfg run -> c ∉ chars cfg -> Z.of_nat (length run) < minlen cfg ->
  final (scanline cfg (run ++ [c]) t w) = w.
Proof.
  intros Hrun Hc Hshort. unfold scanline. case_bool_decide; [done|].
  rewrite for_each_app.
  pose proof (run_quiet cfg t run (line_start cfg w) Hrun) as Hq.
  destruct (for_each _ run (line_start cfg w)) as [st|]; simpl; [|done].
  destruct Hq as [Hw Hi]. simpl in Hi.
  rewrite (body_terminator _ _ _ _ Hc).
  rewrite bool_decide_false by lia. done.
Qed.

(** The property of C4 and C5 for runs of ASCII characters: a terminated
    run whose length is within the bounds is recorded once, in full. *)
Lemma scanline_run_in_bounds pre run c w w1 :
  run_boundary cfg pre -> alphabetic cfg run -> ascii run -> c ∉ chars cfg ->
  minlen cfg ≤ Z.of_nat (length run) ≤ maxlen cfg ->
  scanline cfg pre t w = Ok w1 ->
  scanline cfg (pre ++ run ++ [c]) t w = Ok (add_diamond cfg run t w1).
Proof.
  intros Hpre Hrun Hascii Hc Hlen Hret.
  rewrite (scanline_trailing_run pre run c w w1); try done.
  - cbv zeta. rewrite Nat.min_l by lia.
    rewrite bool_decide_true by done.
    by rewrite firstn_all, utf8_decode_ascii.
  - eapply Forall_impl; [exact Hascii|]. simpl. lia.
Qed.

Lemma scanline_empty w : 0 ≤ maxlen cfg -> scanline cfg [] t w = Ok w.
Proof. intros H. by rewrite scanline_loop. Qed.
End ScanlineRuns.

(** ** Scans act on every world alike *)

Lemma final_map_result {S T} (f : S -> T) (r : result S) :
  final (map_result f r) = f (final r).
Proof. by destruct r. Qed.

Lemma replay_empty w0 : replay w0 empty_world = w0.
Proof. destruct w0. unfold replay. simpl. by rewrite !app_nil_r. Qed.

Lemma replay_add_diamond cfg d t w0 w :
  add_diamond cfg d t (replay w0 w) = replay w0 (add_diamond cfg d t w).
Proof.
  unfold add_diamond, replay. simpl. rewrite foldl_app. simpl.
  f_equal; [|by rewrite app_assoc].
  destruct (notify_diamonds cfg); [by rewrite app_assoc | done].
Qed.

Lemma replay_warn count t w0 w : warn count t (replay w0 w) = replay w0 (warn count t w).
Proof. unfold warn, replay. simpl. by rewrite app_assoc. Qed.

Lemma replay_open_call file w0 w :
  open_call file (replay w0 w) = replay w0 (open_call file w).
Proof. unfold open_call, replay. simpl. by rewrite app_assoc. Qed.

Lemma framed_for_each {A} (body : A -> World -> result World) l :
  (∀ x, framed (body x)) -> framed (for_each body l).
Proof.
  intros Hbody w0 w. apply for_each_natural. intros x s. apply Hbody.
Qed.

Lemma framed_scanline cfg line t : framed (scanline cfg line t).
Proof.
  intros w0 w. unfold scanline. case_bool_decide; [done|].
  change (line_start cfg (replay w0 w)) with (replay_line w0 (line_start cfg w)).
  rewrite (for_each_natural (replay_line w0)).
  - by destruct (for_each _ line (line_start cfg w)).
  - intros c st. unfold scanline_body, replay_line. simpl.
    repeat case_bool_decide; try done.
    destruct (utf8_decode _); simpl; [|done].
    by rewrite replay_add_diamond.
Qed.

Lemma framed_scantext cfg text t : framed (scantext cfg text t).
Proof.
  apply framed_for_each. intros [count line]. apply framed_scanline.
Qed.

Lemma framed_scanstream_loop cfg s t count : framed (scanstream_loop cfg s t count).
Proof.
  intros w0. revert count.
  induction s as [|[line|] s IH]; intros count w; simpl; [done| |].
  - destruct line as [|c line]; [done|].
    rewrite framed_scanline.
    destruct (scanline cfg (c :: line) _ w); simpl; [apply IH | done].
  - rewrite replay_warn. apply IH.
Qed.

Lemma framed_scanfile cfg env file include exclude relpath t :
  framed (scanfile cfg env file include exclude relpath t).
Proof.
  intros w0 w. unfold scanfile.
  destruct (check_extension _ _ _); simpl; [|done].
  destruct (match relpath with None => _ | Some _ => _ end); [|done].
  rewrite replay_open_call.
  destruct (os_open env file); [apply framed_scanstream_loop | done].
Qed.

Lemma framed_scandir cfg env directory deep t include exclude :
  framed (scandir cfg env directory deep t include exclude).
Proof.
  intros w0 w. unfold scandir. destruct deep.
  - apply framed_for_each. intros [[root dirs] files].
    apply framed_for_each. intros file. apply framed_scanfile.
  - destruct (os_listdir env directory); [|done].
    apply framed_for_each. intros file.
    destruct (os_path_isfile _ _); [apply framed_scanfile | done].
Qed.

Lemma framed_scan cfg src tg : framed (scan cfg src tg).
Proof.
  intros w0 w. destruct src; simpl; try done.
  - apply framed_scantext.
  - apply framed_scanstream_loop.
Qed.

Lemma framed_run cfg o : framed (run cfg o).
Proof.
  destruct o; simpl.
  - apply framed_scan.
  - apply framed_scantext.
  - apply framed_scandir.
  - apply framed_scanfile.
  - apply framed_scanstream_loop.
  - apply framed_scanline.
  - intros w0 w. simpl. by rewrite replay_add_diamond.
Qed.

(** An operation on [w] does what it does on the empty world, after [w]. *)
Lemma run_from_empty cfg o w :
  run cfg o w = map_result (replay w) (run cfg o empty_world).
Proof. by rewrite <- framed_run, replay_empty. Qed.

(** ** The mapping and the recorded matches *)

Lemma tags_of_app d h1 h2 : tags_of d (h1 ++ h2) = tags_of d h1 ++ tags_of d h2.
Proof. unfold tags_of. by rewrite filter_app, fmap_app. Qed.

Lemma tags_of_cons d d' t h :
  tags_of d ((d', t) :: h)
  = if decide (d' = d) then t :: tags_of d h else tags_of d h.
Proof.
  unfold tags_of. rewrite filter_cons. simpl. by destruct (decide (d' = d)).
Qed.

Lemma lookup_foldl_record_match m h d :
  foldl record_match m h !! d
  = match tags_of d h with
    | [] => m !! d
    | ts => Some (default [] (m !! d) ++ ts)
    end.
Proof.
  revert m. induction h as [|[d' t'] h IH]; intros m; simpl; [done|].
  rewrite IH, tags_of_cons. unfold record_match. simpl.
  destruct (decide (d' = d)) as [->|Hne].
  - rewrite lookup_insert_eq. simpl.
    destruct (tags_of d h); [done|]. by rewrite <- app_assoc.
  - by rewrite lookup_insert_ne.
Qed.

Lemma grouped_empty : grouped empty_world.
Proof. intros d. done. Qed.

Lemma grouped_replay w0 w : grouped w0 -> grouped (replay w0 w).
Proof.
  intros H0 d. unfold replay. simpl.
  rewrite lookup_foldl_record_match, tags_of_app, (H0 d).
  destruct (tags_of d (history w0)), (tags_of d (history w)); simpl;
    by rewrite ?app_nil_r.
Qed.

Lemma reachable_grouped cfg w : reachable cfg w -> grouped w.
Proof.
  induction 1 as [|o w _ IH]; [apply grouped_empty|].
  rewrite run_from_empty, final_map_result. by apply grouped_replay.
Qed.

(** ** An ASCII alphabet never makes the line scanner raise *)

Section AsciiAlphabet.
Context (cfg : Config) (Hascii : ascii (chars cfg)).

Lemma body_total t c st :
  ascii (diamond_array st) ->
  ∃ st', scanline_body cfg t c st = Ok st' ∧ ascii (diamond_array st').
Proof.
  intros Hbuf. unfold scanline_body.
  case_bool_decide as Hc.
  - case_bool_decide; [by exists st|].
    assert (c < 128)%N as Hlt.
    { unfold ascii in Hascii. rewrite Forall_forall in Hascii. by apply Hascii. }
    rewrite bool_decide_true by lia.
    eexists. split; [done|]. simpl.
    unfold ascii. apply Forall_insert; done.
  - case_bool_decide.
    + rewrite utf8_decode_ascii by (by apply Forall_take).
      eexists. split; done.
    + eexists. split; done.
Qed.

Lemma loop_total t line st :
  ascii (diamond_array st) ->
  ∃ st', for_each (scanline_body cfg t) line st = Ok st'.
Proof.
  revert st. induction line as [|c line IH]; intros st Hbuf; simpl.
  - by exists st.
  - destruct (body_total t c st Hbuf) as (st1 & -> & Hbuf1). by apply IH.
Qed.

Lemma scanline_total line t w :
  0 ≤ maxlen cfg -> ∃ w', scanline cfg line t w = Ok w'.
Proof.
  intros Hmax. unfold scanline. rewrite bool_decide_false by lia.
  destruct (loop_total t line (line_start cfg w)) as [st Hst].
  { simpl. apply Forall_replicate. done. }
  rewrite Hst. by eexists.
Qed.

Lemma for_each_scanline_total {A} (arg : A -> str * tag) l w :
  0 ≤ maxlen cfg ->
  ∃ w', for_each (fun x => scanline cfg (arg x).1 (arg x).2) l w = Ok w'.
Proof.
  intros Hmax. revert w. induction l as [|x l IH]; intros w; simpl.
  - by exists w.
  - destruct (scanline_total (arg x).1 (arg x).2 w Hmax) as [w1 ->]. apply IH.
Qed.
End AsciiAlphabet.

(** ** Splitting and enumerating lines *)

Lemma split_on_nonempty sep s : split_on sep s ≠ [].
Proof.
  destruct s as [|c s]; simpl; [done|].
  case_bool_decide; [done|]. by destruct (split_on sep s).
Qed.

Lemma join_split_on sep s : join sep (split_on sep s) = s.
Proof.
  induction s as [|c s IH]; simpl; [done|].
  pose proof (split_on_nonempty sep s) as Hne.
  destruct (split_on sep s) as [|piece pieces]; [done|].
  case_bool_decide as Hc.
  - subst c. change (sep :: join sep (piece :: pieces) = sep :: s).
    by rewrite IH.
  - destruct pieces; simpl in *; by subst.
Qed.

Lemma split_on_pieces sep s : Forall (fun piece => sep ∉ piece) (split_on sep s).
Proof.
  induction s as [|c s IH]; simpl.
  - repeat constructor. apply not_elem_of_nil.
  - case_bool_decide as Hc.
    + constructor; [apply not_elem_of_nil | done].
    + destruct (split_on sep s) as [|piece pieces].
      * repeat constructor. rewrite not_elem_of_cons.
        split; [congruence | apply not_elem_of_nil].
      * apply Forall_cons in IH as [Hp Hps].
        constructor; [|done]. rewrite not_elem_of_cons. split; [congruence | done].
Qed.

Lemma split_on_no_sep sep s : sep ∉ s -> split_on sep s = [s].
Proof.
  induction s as [|c s IH]; intros Hs; simpl; [done|].
  apply not_elem_of_cons in Hs as [Hc Hs].
  rewrite bool_decide_false by done. by rewrite IH.
Qed.

(** Text appended without a separator extends the last piece. *)
Lemma split_on_app_no_sep sep pre run :
  sep ∉ run ->
  ∃ pieces piece,
    split_on sep pre = pieces ++ [piece]
    ∧ split_on sep (pre ++ run) = pieces ++ [piece ++ run].
Proof.
  intros Hrun. induction pre as [|c pre (pieces & piece & Hpre & Happ)]; simpl.
  - exists [], []. by rewrite split_on_no_sep.
  - case_bool_decide.
    + exists ([] :: pieces), piece. by rewrite Hpre, Happ.
    + rewrite Hpre, Happ. destruct pieces as [|p ps]; simpl.
      * by exists [], (c :: piece).
      * by exists ((c :: p) :: ps), piece.
Qed.

Lemma split_on_app_sep sep pre :
  split_on sep (pre ++ [sep]) = split_on sep pre ++ [[]].
Proof.
  induction pre as [|c pre IH]; simpl.
  - by rewrite bool_decide_true.
  - case_bool_decide; rewrite IH; [done|].
    pose proof (split_on_nonempty sep pre).
    by destruct (split_on sep pre).
Qed.

(** The last line of a text that ends at a run boundary ends at one. *)
Lemma split_on_boundary cfg pre pieces piece :
  run_boundary cfg pre -> split_on LF pre = pieces ++ [piece] ->
  run_boundary cfg piece.
Proof.
  intros [->|(pre' & c & -> & Hc)] Hsplit.
  - destruct pieces as [|? [|]]; simplify_eq/=. by left.
  - destruct (decide (c = LF)) as [->|Hne].
    + rewrite split_on_app_sep in Hsplit.
      apply app_inj_tail in Hsplit as [_ <-]. by left.
    + destruct (split_on_app_no_sep LF pre' [c]) as (ps & p & _ & Happ);
        [rewrite not_elem_of_cons; split; [congruence | apply not_elem_of_nil]|].
      rewrite Happ in Hsplit. apply app_inj_tail in Hsplit as [_ <-].
      right. by exists p, c.
Qed.

Lemma for_each_enumerate {S} (f : str -> tag -> S -> result S) t lines start s :
  for_each (fun '(count, line) => f (line ++ [LF]) (t ++ [CInt count]))
    (enumerate start lines) s
  = for_each (fun call => f call.1 call.2)
      (imap (fun k line => (line ++ [LF], t ++ [CInt (Z.of_nat k + start)])) lines)
      s.
Proof.
  revert start s. induction lines as [|line lines IH]; intros start s; simpl; [done|].
  destruct (f _ _ s) as [s'|]; [|done].
  rewrite IH. f_equal. apply imap_ext. intros k l _. simpl.
  by replace (Z.of_nat k + (start + 1)) with (Z.of_nat (Datatypes.S k) + start)
    by lia.
Qed.

Lemma scantext_with_calls {S} (f : str -> tag -> S -> result S) text t s :
  scantext_with f text t s
  = for_each (fun call => f call.1 call.2) (line_calls t (split_on LF text)) s.
Proof. unfold scantext_with. cbv zeta. apply for_each_enumerate. Qed.

Lemma for_each_note_call calls acc :
  for_each (fun call => note_call call.1 call.2) calls acc = Ok (acc ++ calls).
Proof.
  revert acc. induction calls as [|[line t] calls IH]; intros acc; simpl.
  - by rewrite app_nil_r.
  - rewrite IH. by rewrite <- app_assoc.
Qed.

Lemma line_calls_app t lines1 lines2 :
  line_calls t (lines1 ++ lines2)
  = line_calls t lines1
    ++ imap (fun k line =>
               (line ++ [LF], t ++ [CInt (Z.of_nat (length lines1 + k) + 1)]))
         lines2.
Proof. unfold line_calls. by rewrite imap_app. Qed.

(** ** What a scan can do to the world

    Every operation changes the world through [add_diamond], [warn] and
    [open_call] only: a property of worlds that these three keep is kept by
    every operation, whether it returns or raises. *)

Lemma for_each_preserves {A S} (Q : S -> Prop) (body : A -> S -> result S) l :
  (∀ x s, Q s -> Q (final (body x s))) ->
  ∀ s, Q s -> Q (final (for_each body l s)).
Proof.
  intros Hbody. induction l as [|x l IH]; intros s Hs; simpl; [done|].
  specialize (Hbody x s Hs). destruct (body x s); simpl in *; [by apply IH | done].
Qed.

Section Effects.
Context (cfg : Config) (P : World -> Prop).
Hypothesis Hadd : ∀ d t w, P w -> P (add_diamond cfg d t w).
Hypothesis Hwarn : ∀ count t w, P w -> P (warn count t w).
Hypothesis Hopen : ∀ file w, P w -> P (open_call file w).

Lemma scanline_preserves line t w : P w -> P (final (scanline cfg line t w)).
Proof.
  intros Hw. unfold scanline. case_bool_decide; [done|].
  assert (∀ c st, P (world st) -> P (world (final (scanline_body cfg t c st))))
    as Hbody.
  { intros c st Hst. unfold scanline_body.
    repeat case_bool_decide; simpl; try done.
    destruct (utf8_decode _); simpl; [by apply Hadd | done]. }
  pose proof (for_each_preserves (fun st => P (world st)) (scanline_body cfg t)
                line Hbody (line_start cfg w) Hw) as Hloop.
  by destruct (for_each _ line _).
Qed.

Lemma scantext_preserves text t w : P w -> P (final (scantext cfg text t w)).
Proof.
  apply for_each_preserves. intros [count line] s. apply scanline_preserves.
Qed.

Lemma scanstream_loop_preserves s t count w :
  P w -> P (final (scanstream_loop cfg s t count w)).
Proof.
  revert count w. induction s as [|[line|] s IH]; intros count w Hw; simpl; [done| |].
  - destruct line as [|c line]; [done|].
    pose proof (scanline_preserves (c :: line) (t ++ [CInt count]) w Hw) as Hline.
    destruct (scanline cfg (c :: line) _ w); simpl in *; [by apply IH | done].
  - by apply IH, Hwarn.
Qed.

Lemma scanfile_preserves env file include exclude relpath t w :
  P w -> P (final (scanfile cfg env file include exclude relpath t w)).
Proof.
  intros Hw. unfold scanfile.
  destruct (check_extension _ _ _); simpl; [|done].
  destruct (match relpath with None => _ | Some _ => _ end); [|done].
  destruct (os_open env file); simpl; [|by apply Hopen].
  by apply scanstream_loop_preserves, Hopen.
Qed.

Lemma scandir_preserves env directory deep t include exclude w :
  P w -> P (final (scandir cfg env directory deep t include exclude w)).
Proof.
  intros Hw. unfold scandir. destruct deep.
  - apply for_each_preserves; [|done]. intros [[root dirs] files] w' Hw'.
    apply for_each_preserves; [|done]. intros file w''.
    apply scanfile_preserves.
  - destruct (os_listdir env directory); [|done].
    apply for_each_preserves; [|done]. intros file w' Hw'.
    destruct (os_path_isfile _ _); [by apply scanfile_preserves | done].
Qed.

Lemma run_preserves o w : P w -> P (final (run cfg o w)).
Proof.
  intros Hw. destruct o as [src tg| | | | | |]; simpl.
  - destruct src; simpl; try done.
    + by apply scantext_preserves.
    + by apply scanstream_loop_preserves.
  - by apply scantext_preserves.
  - by apply scandir_preserves.
  - by apply scanfile_preserves.
  - by apply scanstream_loop_preserves.
  - by apply scanline_preserves.
  - by apply Hadd.
Qed.

Lemma reachable_preserves w : P empty_world -> reachable cfg w -> P w.
Proof. intros H0. induction 1; [done | by apply run_preserves]. Qed.
End Effects.

(** The history variable is what [print] shows when notification is on. *)
Lemma stdout_is_history cfg w :
  reachable cfg w ->
  stdout w = if notify_diamonds cfg then history w else [].
Proof.
  apply (reachable_preserves cfg
           (fun w => stdout w = if notify_diamonds cfg then history w else [])).
  - intros d t w' Hw'. unfold add_diamond. simpl.
    destruct (notify_diamonds cfg); by rewrite Hw'.
  - done.
  - done.
  - by destruct (notify_diamonds cfg).
Qed.

(** [scanfile] calls [open] at most once, on the file it was given. *)
Lemma scanfile_opens_its_file cfg env file include exclude relpath t w :
  opened (final (scanfile cfg env file include exclude relpath t w)) = opened w
  ∨ opened (final (scanfile cfg env file include exclude relpath t w))
    = opened w ++ [file].
Proof.
  unfold scanfile.
  destruct (check_extension _ _ _); simpl; [|by left].
  destruct (match relpath with None => _ | Some _ => _ end); [|by left].
  right. destruct (os_open env file); simpl; [|done].
  apply (scanstream_loop_preserves cfg (fun w' => opened w' = opened w ++ [file]));
    done.
Qed.

(** ** Configurations under which nothing is recorded *)

Lemma loop_inverted_bounds cfg t line st :
  maxlen cfg < minlen cfg ->
  world (final (for_each (scanline_body cfg t) line st)) = world st.
Proof.
  intros Hinv. revert st. induction line as [|c line IH]; intros st; simpl; [done|].
  unfold scanline_body at 1.
  repeat case_bool_decide; simpl; try lia; by rewrite ?IH.
Qed.

Lemma scanline_inverted_bounds cfg line t w :
  maxlen cfg < minlen cfg -> final (scanline cfg line t w) = w.
Proof.
  intros Hinv. unfold scanline. case_bool_decide; [done|].
  pose proof (loop_inverted_bounds cfg t line (line_start cfg w) Hinv) as Hw.
  by destruct (for_each _ line _).
Qed.

Lemma loop_empty_alphabet cfg t line st :
  chars cfg = [] -> 0 < minlen cfg -> index st = 0%nat ->
  ∃ st', for_each (scanline_body cfg t) line st = Ok st'
         ∧ world st' = world st ∧ index st' = 0%nat.
Proof.
  intros Hempty Hmin. revert st.
  induction line as [|c line IH]; intros st Hst; simpl; [by exists st|].
  rewrite body_terminator by (rewrite Hempty; apply not_elem_of_nil).
  rewrite bool_decide_false by lia.
  match goal with |- context [for_each _ line ?s] =>
    destruct (IH s eq_refl) as (st' & -> & Hw & Hi) end.
  by exists st'.
Qed.

Lemma scanline_empty_alphabet cfg line t w :
  chars cfg = [] -> 0 < minlen cfg -> 0 ≤ maxlen cfg ->
  scanline cfg line t w = Ok w.
Proof.
  intros Hempty Hmin Hmax. unfold scanline. rewrite bool_decide_false by lia.
  destruct (loop_empty_alphabet cfg t line (line_start cfg w) Hempty Hmin eq_refl)
    as (st & Hst & Hw & _).
  rewrite Hst. simpl. by rewrite Hw.
Qed.

(** ** Runs of ASCII characters

    For these the byte buffer gives the run back, and the line scanner does
    what the specification says of it. *)

(** A line that is one run and its terminator: the run is recorded once, in
    full, when its length is within the bounds (both bounds included), and
    nothing is recorded when it is shorter than [minlen]. *)
Lemma scanline_ascii_run cfg run c t w :
  alphabetic cfg run -> ascii run -> c ∉ chars cfg ->
  (minlen cfg ≤ Z.of_nat (length run) ≤ maxlen cfg ->
   scanline cfg (run ++ [c]) t w = Ok (add_diamond cfg run t w))
  ∧ (Z.of_nat (length run) < minlen cfg ->
     final (scanline cfg (run ++ [c]) t w) = w).
Proof.
  intros Hrun Hascii Hc. split.
  - intros Hlen. change (run ++ [c]) with ([] ++ run ++ [c]).
    apply scanline_run_in_bounds; try done; [by left|].
    apply scanline_empty. lia.
  - by apply scanline_short_run.
Qed.

(** A string that ends with a run within the bounds: without a terminator
    the run is dropped, with one it is recorded. *)
Lemma scanline_ascii_sentinel cfg pre run c t w :
  ascii (chars cfg) -> run_boundary cfg pre -> alphabetic cfg run ->
  c ∉ chars cfg -> minlen cfg ≤ Z.of_nat (length run) ≤ maxlen cfg ->
  ∃ w1, scanline cfg pre t w = Ok w1
        ∧ scanline cfg (pre ++ run) t w = Ok w1
        ∧ scanline cfg (pre ++ run ++ [c]) t w = Ok (add_diamond cfg run t w1).
Proof.
  intros Hascii Hpre Hrun Hc Hlen.
  assert (0 ≤ maxlen cfg) as Hmax by lia.
  destruct (scanline_total cfg Hascii pre t w Hmax) as [w1 Hw1].
  destruct (scanline_total cfg Hascii (pre ++ run) t w Hmax) as [w2 Hw2].
  pose proof (scanline_unterminated cfg t pre run w Hrun) as Hsame.
  rewrite Hw1, Hw2 in Hsame. simpl in Hsame. subst w2.
  exists w1. do 2 (split; [done|]).
  apply scanline_run_in_bounds; try done.
  unfold ascii, alphabetic in *. rewrite !Forall_forall in *.
  intros x Hx. apply Hascii. by apply Hrun.
Qed.

(** Bytes that happen to form a UTF-8 sequence are recorded as another
    text: the run U+00C3 U+00A9 is recorded as the one character U+00E9. *)
Example scanline_records_other_text :
  scanline {| chars := [195; 169]%N; minlen := 1; maxlen := 5;
              notify_diamonds := false |}
    ([195; 169]%N ++ [LF]) [CInt 1] empty_world
  = Ok (add_diamond accent_cfg [E_ACUTE] [CInt 1] empty_world).
Proof. by vm_compute. Qed.

(** A character above U+00FF does not fit the byte buffer. *)
Example scanline_wide_character_raises :
  scanline {| chars := [8364%N]; minlen := 1; maxlen := 5;
              notify_diamonds := false |}
    ([8364%N] ++ [LF]) [CInt 1] empty_world
  = Raise ValueError empty_world.
Proof. by vm_compute. Qed.

(** * The claims *)

(** C1 (counterexample).  With the alphabet of the hexadecimal digits and the
    bounds 24 and 26, a line that is a run of 27 digits and a line feed makes
    [scanline] record a diamond: the first 26 digits of the run.  The run is
    longer than [maxlen], so the claim that such a run emits nothing fails. *)
Lemma long_run_is_emitted :
  let run := lit "0123456789abcdef0123456789a" in
  alphabetic hexcfg run
  ∧ (LF ∉ chars hexcfg)
  ∧ maxlen hexcfg < Z.of_nat (length run)
  ∧ scanline hexcfg (run ++ [LF]) [CInt 1] empty_world
    = Ok (add_diamond hexcfg (lit "0123456789abcdef0123456789") [CInt 1]
            empty_world)
  ∧ history (final (scanline hexcfg (run ++ [LF]) [CInt 1] empty_world))
    ≠ history empty_world.
Proof.
  cbv zeta. unfold alphabetic.
  split; [compute_done|]. split; [compute_done|]. split; [compute_done|].
  split; [by vm_compute|]. by vm_compute.
Qed.

(** C1 (amended).  A line that is a run of ASCII alphabet characters longer
    than [maxlen] (with [0 <= maxlen]) followed by a character outside the
    alphabet makes [scanline] return normally; when [minlen <= maxlen] it
    records exactly one diamond, the first [maxlen] characters of the run,
    and when [minlen > maxlen] it records nothing. *)
Theorem scanline_long_run_emits_prefix cfg run c t w :
  alphabetic cfg run -> ascii run -> c ∉ chars cfg ->
  0 ≤ maxlen cfg < Z.of_nat (length run) ->
  scanline cfg (run ++ [c]) t w
  = if bool_decide (minlen cfg ≤ maxlen cfg)
    then Ok (add_diamond cfg (take (Z.to_nat (maxlen cfg)) run) t w)
    else Ok w.
Proof.
  intros Hrun Hascii Hc Hlen.
  change (run ++ [c]) with ([] ++ run ++ [c]).
  rewrite (scanline_trailing_run cfg t [] run c w w); try done.
  - cbv zeta. rewrite Nat.min_r by lia. rewrite Z2Nat.id by lia.
    rewrite utf8_decode_ascii by (by apply Forall_take).
    repeat case_bool_decide; done || lia.
  - by left.
  - eapply Forall_impl; [exact Hascii|]. simpl. lia.
  - apply scanline_empty. lia.
Qed.

Lemma scanline_long_run_emits_prefix_witness :
  scanline small_cfg (lit "aaa" ++ [LF]) [CInt 1] empty_world
  = Ok (add_diamond small_cfg (lit "aa") [CInt 1] empty_world).
Proof.
  apply (scanline_long_run_emits_prefix small_cfg (lit "aaa") LF [CInt 1]
           empty_world).
  - unfold alphabetic. compute_done.
  - unfold ascii. compute_done.
  - compute_done.
  - vm_compute. split; [discriminate | reflexivity].
Defined.

(** C2 (counterexample).  Constructing an engine with an empty alphabet,
    [minlen = 5] and [maxlen = 3] does not fail: [__init__] returns an engine
    holding these values, and that engine scans a text without an error and
    without a result. *)
Lemma init_accepts_invalid_configuration :
  (5 > 3 ∧ @nil N = [])
  ∧ ¬ (∃ e, init [] 5 3 false = inl e)
  ∧ ∃ cfg, init [] 5 3 false = inr (cfg, empty_world)
           ∧ scantext cfg (lit "abc") [] empty_world = Ok empty_world.
Proof.
  split; [split; [lia | done]|].
  split; [intros [e He]; discriminate|].
  eexists. split; [reflexivity|]. by vm_compute.
Qed.

(** C2 (amended).  Construction never fails and validates nothing: for
    every alphabet, bounds and notification flag [__init__] returns an engine
    that holds exactly these values and an empty mapping.  An engine with
    [minlen > maxlen] records nothing in any [scanline] call, and an engine
    with an empty alphabet, [minlen > 0] and [0 <= maxlen < PY_SSIZE_T_MAX]
    (a buffer length that [bytearray] accepts) returns normally from every
    [scanline] call and records nothing. *)
Theorem init_never_fails alphabet lo hi notify :
  ∃ cfg,
    init alphabet lo hi notify = inr (cfg, empty_world)
    ∧ chars cfg = alphabet ∧ minlen cfg = lo ∧ maxlen cfg = hi
    ∧ notify_diamonds cfg = notify
    ∧ (hi < lo -> ∀ line t w, final (scanline cfg line t w) = w)
    ∧ (alphabet = [] -> 0 < lo -> 0 ≤ hi < PY_SSIZE_T_MAX ->
       ∀ line t w, scanline cfg line t w = Ok w).
Proof.
  eexists. split; [reflexivity|]. simpl. do 4 (split; [done|]). split.
  - intros Hinv line t w. by apply scanline_inverted_bounds.
  - intros -> Hlo [Hhi _] line t w. by apply scanline_empty_alphabet.
Qed.

Lemma init_never_fails_witness :
  ∃ cfg, init [] 5 3 false = inr (cfg, empty_world)
         ∧ final (scanline cfg (lit "abc") [] empty_world) = empty_world
         ∧ scanline cfg (lit "abc") [] empty_world = Ok empty_world.
Proof.
  destruct (init_never_fails [] 5 3 false)
    as (cfg & Hinit & _ & _ & _ & _ & Hinv & Hempty).
  exists cfg. split; [exact Hinit|]. split.
  - apply Hinv. lia.
  - apply Hempty; [reflexivity | lia | compute_done].
Defined.

(** C3.  Whatever the [include] and [exclude] arguments are, a file whose
    extension occurs in [include], or in [exclude], is rejected by
    [check_extension], and [scanfile] returns at once: the world is unchanged
    and [open] is not called.  The check passes exactly when the extension
    occurs in neither, so [scanfile] calls [open] only for such a file. *)
Theorem extension_filter cfg env file include exclude relpath t w :
  (listed (suffix file) include ∨ listed (suffix file) exclude ->
   check_extension file include exclude = false
   ∧ scanfile cfg env file include exclude relpath t w = Ok w)
  ∧ (check_extension file include exclude = true
     <-> ¬ listed (suffix file) include ∧ ¬ listed (suffix file) exclude)
  ∧ (opened (final (scanfile cfg env file include exclude relpath t w))
       ≠ opened w ->
     ¬ listed (suffix file) include ∧ ¬ listed (suffix file) exclude).
Proof.
  assert (check_extension file include exclude = true
          <-> ¬ listed (suffix file) include ∧ ¬ listed (suffix file) exclude)
    as Hcheck.
  { unfold check_extension. cbv zeta.
    destruct include as [|s|l], exclude as [|s'|l']; simpl;
      repeat case_bool_decide; rewrite ?list_elem_of_singleton in *;
        split; try done; tauto. }
  split; [|split; [exact Hcheck|]].
  - intros Hlisted.
    assert (check_extension file include exclude = false) as Hfalse.
    { destruct (check_extension file include exclude); [|done].
      destruct Hcheck as [Hcheck _]. specialize (Hcheck eq_refl). tauto. }
    split; [done|]. unfold scanfile. by rewrite Hfalse.
  - intros Hopen. apply Hcheck.
    destruct (check_extension file include exclude) eqn:Hc; [done|].
    unfold scanfile in Hopen. by rewrite Hc in Hopen.
Qed.

Lemma extension_filter_witness :
  (check_extension (lit "x.py") (FList [lit ".py"]) FNone = false
   ∧ scanfile hexcfg demo_env (lit "x.py") (FList [lit ".py"]) FNone None []
       empty_world = Ok empty_world)
  ∧ (check_extension (lit "x.lock") FNone (FStr (lit ".lock")) = false
     ∧ scanfile hexcfg demo_env (lit "x.lock") FNone (FStr (lit ".lock")) None []
         empty_world = Ok empty_world)
  ∧ (¬ listed (suffix (lit "a.txt")) (FList [lit ".py"])
     ∧ ¬ listed (suffix (lit "a.txt")) (FStr (lit ".lock"))).
Proof.
  split; [|split].
  - apply (extension_filter hexcfg demo_env (lit "x.py") (FList [lit ".py"]) FNone
             None [] empty_world).
    left. simpl. compute_done.
  - apply (extension_filter hexcfg demo_env (lit "x.lock") FNone (FStr (lit ".lock"))
             None [] empty_world).
    right. reflexivity.
  - apply (extension_filter hexcfg demo_env (lit "a.txt") (FList [lit ".py"])
             (FStr (lit ".lock")) None [] empty_world).
    vm_compute. discriminate.
Defined.

(** C4 (the code at the failing input).  The alphabet is the one character
    U+00E9, [minlen = 1], [maxlen = 5]; the line is that character and a line
    feed, a run of length 1 within the bounds.  [scanline] stores the byte
    233, fails to decode it as UTF-8 and raises; nothing is recorded. *)
Theorem scanline_non_ascii_run_raises :
  alphabetic accent_cfg [E_ACUTE]
  ∧ (LF ∉ chars accent_cfg)
  ∧ minlen accent_cfg ≤ Z.of_nat (length [E_ACUTE]) ≤ maxlen accent_cfg
  ∧ scanline accent_cfg ([E_ACUTE] ++ [LF]) [CInt 1] empty_world
    = Raise UnicodeDecodeError empty_world.
Proof.
  unfold alphabetic.
  split; [compute_done|]. split; [compute_done|]. split; [compute_done|].
  by vm_compute.
Qed.

(** C5 (the code at the failing input).  With the same engine, the string
    [id=] followed by U+00E9 ends with a run of length 1 within the bounds.
    Without a terminator [scanline] returns and records nothing; with a line
    feed appended it raises [UnicodeDecodeError], again recording nothing. *)
Theorem scanline_non_ascii_trailing_run_raises :
  let text := lit "id=" ++ [E_ACUTE] in
  run_boundary accent_cfg (lit "id=")
  ∧ alphabetic accent_cfg [E_ACUTE]
  ∧ scanline accent_cfg text [CInt 1] empty_world = Ok empty_world
  ∧ scanline accent_cfg (text ++ [LF]) [CInt 1] empty_world
    = Raise UnicodeDecodeError empty_world.
Proof.
  cbv zeta. split; [|split; [|split]].
  - right. exists (lit "id"), 61%N. split; [done | compute_done].
  - unfold alphabetic. compute_done.
  - by vm_compute.
  - by vm_compute.
Qed.

(** ** Streams *)


Lemma scanstream_loop_returns cfg s t count w :
  (∀ line t' w', Line line ∈ s -> returns (scanline cfg line t' w') = true) ->
  returns (scanstream_loop cfg s t count w) = true.
Proof.
  revert count w. induction s as [|o s IH]; intros count w Hlines; simpl; [done|].
  assert (∀ line t' w', Line line ∈ s -> returns (scanline cfg line t' w') = true)
    as Hrest by (intros line t' w' Hin; apply Hlines; by right).
  destruct o as [[|c line]|]; [done| |by apply IH].
  specialize (Hlines (c :: line) (t ++ [CInt count]) w (list_elem_of_here _ _)).
  destruct (scanline cfg (c :: line) _ w); [by apply IH | done].
Qed.



(** ** Keys, tags and recorded matches *)

Lemma elem_of_tags_of d t h : t ∈ tags_of d h <-> (d, t) ∈ h.
Proof.
  unfold tags_of. rewrite list_elem_of_fmap. split.
  - intros ([d' t'] & -> & Hin). apply list_elem_of_filter in Hin as [Hd Hin].
    simpl in *. by subst.
  - intros Hin. exists (d, t). split; [done|]. by apply list_elem_of_filter.
Qed.

Lemma tags_of_recorded d h : tags_of d h ≠ [] <-> ∃ t, (d, t) ∈ h.
Proof.
  split.
  - destruct (tags_of d h) as [|t ts] eqn:Htags; [done|]. intros _.
    exists t. apply elem_of_tags_of. rewrite Htags. by left.
  - intros [t Hin] Hnil. apply elem_of_tags_of in Hin.
    rewrite Hnil in Hin. by apply elem_of_nil in Hin.
Qed.

Lemma grouped_lookup w d :
  grouped w -> default [] (mapping w !! d) = tags_of d (history w).
Proof. intros Hw. rewrite (Hw d). by destruct (tags_of d (history w)). Qed.

Lemma index_grows cfg o w d ts :
  mapping w !! d = Some ts ->
  ∃ more, mapping (final (run cfg o w)) !! d = Some (ts ++ more).
Proof.
  intros Hd. rewrite run_from_empty, final_map_result.
  unfold replay. simpl. rewrite lookup_foldl_record_match, Hd. simpl.
  destruct (tags_of d _) as [|t' ts'].
  - exists []. by rewrite app_nil_r.
  - by exists (t' :: ts').
Qed.

(** C7.  In every world an engine can reach, whether its operations
    returned or raised: the mapping has a key for a text exactly when a match
    with that text was recorded, and the key holds the tags recorded for the
    text, in order; recording a match changes the one key of its text, by
    creating it or by appending the tag; every operation leaves each key in
    place with its tag list extended at the end, and changes the mapping by
    the matches it records and by nothing else.  The mapping that [__init__]
    leaves is empty, with no match recorded. *)
Theorem index_keys_are_recorded_matches cfg w :
  reachable cfg w ->
  (∀ alphabet lo hi notify cfg0 w0,
     init alphabet lo hi notify = inr (cfg0, w0) ->
     mapping w0 = ∅ ∧ history w0 = [] ∧ reachable cfg0 w0)
  ∧ (∀ d, d ∈ dom (mapping w) <-> ∃ t, (d, t) ∈ history w)
  ∧ (∀ d ts, mapping w !! d = Some ts <-> ts ≠ [] ∧ ts = tags_of d (history w))
  ∧ (∀ d t d',
       mapping (add_diamond cfg d t w) !! d'
       = if decide (d = d') then Some (default [] (mapping w !! d) ++ [t])
         else mapping w !! d')
  ∧ (∀ o d ts,
       mapping w !! d = Some ts ->
       ∃ more, mapping (final (run cfg o w)) !! d = Some (ts ++ more))
  ∧ (∀ o, ∃ more,
       history (final (run cfg o w)) = history w ++ more
       ∧ mapping (final (run cfg o w)) = foldl record_match (mapping w) more).
Proof.
  intros Hreach. pose proof (reachable_grouped cfg w Hreach) as Hgrouped.
  split; [|split; [|split; [|split; [|split]]]].
  - intros alphabet lo hi notify cfg0 w0 [= <- <-].
    do 2 (split; [done|]). apply reachable_init.
  - intros d. rewrite elem_of_dom, (Hgrouped d), <- tags_of_recorded.
    destruct (tags_of d (history w)) as [|t' ts'].
    + split; [by intros [? ?] | intros Hne; by destruct Hne].
    + split; [done | by eexists].
  - intros d ts. rewrite (Hgrouped d).
    destruct (tags_of d (history w)) as [|t' ts'].
    + split; [done | intros [Hne ->]; by destruct Hne].
    + split; [by intros [= <-] | by intros [_ ->]].
  - intros d t d'. unfold add_diamond. simpl. apply lookup_insert.
  - intros o d ts. apply index_grows.
  - intros o. rewrite run_from_empty, final_map_result. by eexists.
Qed.

Lemma index_keys_are_recorded_matches_witness :
  reachable hexcfg
    (final (run hexcfg (OpScanline (lit "0123456789abcdef01234567" ++ [LF])
                          [CInt 1]) empty_world))
  ∧ (lit "0123456789abcdef01234567"
       ∈ dom (mapping (final (run hexcfg
                              (OpScanline (lit "0123456789abcdef01234567" ++ [LF])
                                 [CInt 1]) empty_world)))
     <-> ∃ t, (lit "0123456789abcdef01234567", t)
              ∈ history (final (run hexcfg
                                  (OpScanline
                                     (lit "0123456789abcdef01234567" ++ [LF])
                                     [CInt 1]) empty_world))).
Proof.
  assert (reachable hexcfg
            (final (run hexcfg
                      (OpScanline (lit "0123456789abcdef01234567" ++ [LF])
                         [CInt 1]) empty_world))) as Hreach
    by apply reachable_step, reachable_init.
  split; [exact Hreach|].
  apply (index_keys_are_recorded_matches hexcfg _ Hreach).
Defined.

(** Aggregation, given detection.  In every world an engine can reach, the
    tag list of a text is as long as the number of matches recorded with that
    text.  In particular, if
    each of two scan operations, run alone on a new engine, leaves the text
    [d] with the single tag [t1], respectively [t2], then running the second
    after the first on one engine leaves the one key [d] with the two tags
    [t1; t2]. *)
Theorem tags_count_occurrences cfg :
  (∀ w d, reachable cfg w ->
     length (default [] (mapping w !! d))
     = length (filter (fun m => m.1 = d) (history w)))
  ∧ (∀ o1 o2 w1 w2 d t1 t2,
       run cfg o1 empty_world = Ok w1 -> mapping w1 !! d = Some [t1] ->
       run cfg o2 empty_world = Ok w2 -> mapping w2 !! d = Some [t2] ->
       ∃ w12, run cfg o2 w1 = Ok w12 ∧ mapping w12 !! d = Some [t1; t2]).
Proof.
  split.
  - intros w d Hreach.
    rewrite (grouped_lookup w d (reachable_grouped cfg w Hreach)).
    unfold tags_of. by rewrite length_fmap.
  - intros o1 o2 w1 w2 d t1 t2 Hrun1 Hd1 Hrun2 Hd2.
    exists (replay w1 w2). split.
    + by rewrite run_from_empty, Hrun2.
    + assert (reachable cfg w2) as Hreach2.
      { replace w2 with (final (run cfg o2 empty_world)) by (by rewrite Hrun2).
        apply reachable_step, reachable_init. }
      pose proof (grouped_lookup w2 d (reachable_grouped cfg w2 Hreach2)) as Htags.
      rewrite Hd2 in Htags. simpl in Htags.
      unfold replay. simpl.
      by rewrite lookup_foldl_record_match, <- Htags, Hd1.
Qed.

Lemma tags_count_occurrences_witness :
  let diamond := lit "0123456789abcdef01234567" in
  let scan_a := OpScanfile demo_env (lit "a.txt") FNone FNone None [] in
  let scan_b := OpScanfile demo_env (lit "b.txt") FNone FNone None [] in
  ∃ w12, run hexcfg scan_b (final (run hexcfg scan_a empty_world)) = Ok w12
         ∧ mapping w12 !! diamond
           = Some [[CStr (lit "a.txt"); CInt 1]; [CStr (lit "b.txt"); CInt 1]]
         ∧ length (default [] (mapping empty_world !! diamond))
           = length (filter (fun m => m.1 = diamond) (history empty_world)).
Proof.
  intros diamond scan_a scan_b.
  destruct (tags_count_occurrences hexcfg) as [Hcount Htwo].
  destruct (Htwo scan_a scan_b (final (run hexcfg scan_a empty_world))
              (final (run hexcfg scan_b empty_world)) diamond
              [CStr (lit "a.txt"); CInt 1] [CStr (lit "b.txt"); CInt 1])
    as (w12 & Hrun & Hd); [by vm_compute..|].
  exists w12. split; [exact Hrun|]. split; [exact Hd|].
  apply Hcount, reachable_init.
Defined.

(** C8 (the code at the failing input).  Two files, [a.txt] and [b.txt],
    each hold the same run of 24 hexadecimal digits and nothing else, with no
    newline at the end; as a text, the content holds the diamond, and
    [scantext] records it.  [scanfile] on the one and then on the other, with
    one engine, opens both and returns normally, and the mapping has no entry
    for the text: [readline] returns the last line without a terminator,
    [scanstream] passes it on as it is, and [scanline] never flushes the
    run.  With the same two scans of files that end with a newline
    ([demo_env]) the text has its one entry with the two tags. *)
Theorem unterminated_files_leave_no_entry :
  let diamond := lit "0123456789abcdef01234567" in
  let a := lit "a.txt" in
  let b := lit "b.txt" in
  os_open bare_env a = Some [Line diamond]
  ∧ os_open bare_env b = Some [Line diamond]
  ∧ scantext hexcfg diamond [CStr a] empty_world
    = Ok (add_diamond hexcfg diamond [CStr a; CInt 1] empty_world)
  ∧ scanfile hexcfg bare_env a FNone FNone None [] empty_world
    = Ok (open_call a empty_world)
  ∧ scanfile hexcfg bare_env b FNone FNone None [] (open_call a empty_world)
    = Ok (open_call b (open_call a empty_world))
  ∧ mapping (open_call b (open_call a empty_world)) !! diamond = None
  ∧ mapping (final (scanfile hexcfg demo_env b FNone FNone None []
                      (final (scanfile hexcfg demo_env a FNone FNone None []
                                empty_world))))
      !! diamond
    = Some [[CStr a; CInt 1]; [CStr b; CInt 1]].
Proof.
  intros diamond a b.
  split; [reflexivity|]. split; [reflexivity|].
  do 4 (split; [vm_compute; reflexivity|]).
  vm_compute. reflexivity.
Qed.

(** C9.  For every text, [scantext] cuts the text at its line feeds (the
    pieces contain no line feed and joined by line feeds they give the text
    back) and calls the line scanner once for each piece, in order: the
    [k]-th call, counting from 1, passes the [k]-th piece with a line feed
    appended and the caller's tag extended by the number [k].  With the
    engine's own [scanline] the scan is these calls in sequence. *)
Theorem scantext_scans_each_line cfg text t :
  join LF (split_on LF text) = text
  ∧ Forall (fun line => LF ∉ line) (split_on LF text)
  ∧ scantext_with note_call text t [] = Ok (line_calls t (split_on LF text))
  ∧ length (line_calls t (split_on LF text)) = length (split_on LF text)
  ∧ (∀ k line,
       split_on LF text !! k = Some line ->
       line_calls t (split_on LF text) !! k
       = Some (line ++ [LF], t ++ [CInt (Z.of_nat k + 1)]))
  ∧ (∀ w, scantext cfg text t w
          = for_each (fun call => scanline cfg call.1 call.2)
              (line_calls t (split_on LF text)) w).
Proof.
  split; [apply join_split_on|]. split; [apply split_on_pieces|].
  split; [by rewrite scantext_with_calls, for_each_note_call|].
  split; [apply length_imap|]. split.
  - intros k line Hk. unfold line_calls. by rewrite list_lookup_imap, Hk.
  - intros w. apply scantext_with_calls.
Qed.

(** C10 (counterexample).  The alphabet is the letter [a] and the line
    feed, with the bounds 1 and 5.  The text [a] ends with a run of length 1,
    within the bounds, and has no terminator.  [scantext] appends a line feed,
    which here continues the run, and the scan records nothing. *)
Lemma scantext_newline_in_alphabet :
  alphabetic newline_cfg (lit "a")
  ∧ minlen newline_cfg ≤ Z.of_nat (length (lit "a")) ≤ maxlen newline_cfg
  ∧ scantext_with note_call (lit "a") [] [] = Ok [(lit "a" ++ [LF], [CInt 1])]
  ∧ scantext newline_cfg (lit "a") [] empty_world = Ok empty_world.
Proof.
  unfold alphabetic. split; [compute_done|]. split; [compute_done|].
  split; by vm_compute.
Qed.

(** C10 (amended).  Whenever the line feed is not in the alphabet (the
    alphabet being ASCII and [0 <= maxlen < PY_SSIZE_T_MAX], a buffer length
    that [bytearray] accepts), [scantext] hands every line to
    the line scanner with a line feed appended, and for a text that ends with
    a run of alphabet characters whose length is within the bounds the scan
    returns normally with that run as the match recorded last, tagged with
    the number of the last line; the text needs no terminator of its own. *)
Theorem scantext_flushes_last_run cfg pre run t w :
  ascii (chars cfg) -> LF ∉ chars cfg -> 0 ≤ maxlen cfg < PY_SSIZE_T_MAX ->
  run_boundary cfg pre -> alphabetic cfg run ->
  minlen cfg ≤ Z.of_nat (length run) ≤ maxlen cfg ->
  (∃ calls, scantext_with note_call (pre ++ run) t [] = Ok calls
            ∧ Forall (fun call => ∃ line, call.1 = line ++ [LF]) calls)
  ∧ ∃ w1, scantext cfg (pre ++ run) t w
          = Ok (add_diamond cfg run
                  (t ++ [CInt (Z.of_nat (length (split_on LF pre)))]) w1).
Proof.
  intros Hascii Hlf [Hmax _] Hpre Hrun Hlen. split.
  - exists (line_calls t (split_on LF (pre ++ run))).
    split; [by rewrite scantext_with_calls, for_each_note_call|].
    unfold line_calls. apply Forall_lookup. intros k call Hk.
    rewrite list_lookup_imap in Hk.
    destruct (split_on LF (pre ++ run) !! k) as [line|]; [|done].
    injection Hk as <-. by exists line.
  - assert (LF ∉ run) as Hrunlf.
    { intros Hin. unfold alphabetic in Hrun. rewrite Forall_forall in Hrun.
      by apply Hlf, Hrun. }
    destruct (split_on_app_no_sep LF pre run Hrunlf)
      as (pieces & piece & Hsplit & Happ).
    pose proof (split_on_boundary cfg pre pieces piece Hpre Hsplit) as Hpiece.
    unfold scantext. rewrite scantext_with_calls, Happ, line_calls_app.
    rewrite for_each_app.
    destruct (for_each_scanline_total cfg Hascii id (line_calls t pieces) w Hmax)
      as [w0 Hw0].
    simpl in Hw0. rewrite Hw0. simpl.
    destruct (scanline_total cfg Hascii piece
                (t ++ [CInt (Z.of_nat (length pieces + 0) + 1)])
                w0 Hmax) as [w1 Hw1].
    exists w1. rewrite <- app_assoc.
    rewrite (scanline_run_in_bounds cfg _ piece run LF w0 w1); try done.
    + rewrite Hsplit, length_app. simpl.
      by replace (Z.of_nat (length pieces + 0) + 1)
        with (Z.of_nat (length pieces + 1)) by lia.
    + unfold ascii, alphabetic in *. rewrite !Forall_forall in *.
      intros c Hc. apply Hascii. by apply Hrun.
Qed.

Lemma scantext_flushes_last_run_witness :
  ∃ w1, scantext hexcfg (lit "first" ++ [LF] ++ lit "id=0123456789abcdef01234567")
          [CStr (lit "a.txt")] empty_world
        = Ok (add_diamond hexcfg (lit "0123456789abcdef01234567")
                ([CStr (lit "a.txt")] ++ [CInt 2]) w1).
Proof.
  apply (scantext_flushes_last_run hexcfg (lit "first" ++ [LF] ++ lit "id=")
           (lit "0123456789abcdef01234567") [CStr (lit "a.txt")] empty_world).
  - unfold ascii. compute_done.
  - compute_done.
  - compute_done.
  - right. exists (lit "first" ++ [LF] ++ lit "id"), 61%N.
    split; [reflexivity | compute_done].
  - unfold alphabetic. compute_done.
  - compute_done.
Defined.

(** * Further properties of the scanner *)

(** ** The line scanner against its specification *)

Lemma alphabetic_ascii cfg s : ascii (chars cfg) -> alphabetic cfg s -> ascii s.
Proof.
  unfold ascii, alphabetic. rewrite !Forall_forall.
  intros Hascii Hs c Hc. by apply Hascii, Hs.
Qed.

Lemma loop_records_runs cfg t line cur st :
  ascii (chars cfg) -> buffer_ok cfg st -> alphabetic cfg cur ->
  index st = Nat.min (length cur) (Z.to_nat (maxlen cfg)) ->
  take (index st) (diamond_array st) = take (Z.to_nat (maxlen cfg)) cur ->
  ∃ st',
    for_each (scanline_body cfg t) line st = Ok st'
    ∧ world st'
      = record_all cfg t
          (filter (fun d => minlen cfg ≤ Z.of_nat (length d) ≤ maxlen cfg)
             (take (Z.to_nat (maxlen cfg)) <$> terminated_runs cfg cur line))
          (world st).
Proof.
  intros Hascii. revert cur st.
  induction line as [|c line IH]; intros cur st [Hlen Hle] Hcur Hidx Htake; simpl.
  - by exists st.
  - unfold scanline_body at 1. case_bool_decide as Hc.
    + assert (alphabetic cfg (cur ++ [c])) as Hcur'.
      { apply Forall_app. split; [done|]. by constructor. }
      case_bool_decide as Hfull.
      * apply (IH (cur ++ [c]) st); [done | done | |].
        -- rewrite length_app. simpl. lia.
        -- rewrite Htake. rewrite take_app_le by lia. done.
      * assert (c < 128)%N as Hlt.
        { unfold ascii in Hascii. rewrite Forall_forall in Hascii. by apply Hascii. }
        rewrite bool_decide_true by lia.
        match goal with |- context [for_each _ line ?s] =>
          destruct (IH (cur ++ [c]) s) as (st' & Hst' & Hw) end; try done.
        -- split; simpl; [by rewrite length_insert | lia].
        -- simpl. rewrite length_app. simpl. lia.
        -- simpl. rewrite (take_S_r _ _ c) by (apply list_lookup_insert_eq; lia).
           rewrite take_insert_ge by lia. rewrite Htake.
           rewrite (take_ge cur) by lia.
           rewrite take_ge by (rewrite length_app; simpl; lia). done.
        -- by exists st'.
    + assert (Z.of_nat (index st)
              = Z.of_nat (length (take (Z.to_nat (maxlen cfg)) cur))) as Hcut.
      { rewrite length_take. lia. }
      rewrite Htake, Hcut. rewrite fmap_cons, filter_cons.
      destruct (decide (minlen cfg
                        ≤ Z.of_nat (length (take (Z.to_nat (maxlen cfg)) cur))
                        ≤ maxlen cfg)) as [Hin|Hout].
      * rewrite bool_decide_true by done.
        rewrite utf8_decode_ascii
          by (apply Forall_take; by apply (alphabetic_ascii cfg)).
        match goal with |- context [for_each _ line ?s] =>
          destruct (IH [] s) as (st' & Hst' & Hw) end; try done.
        -- split; simpl; [done | lia].
        -- by constructor.
        -- by rewrite take_nil.
        -- exists st'. split; [done|]. by rewrite Hw.
      * rewrite bool_decide_false by done.
        match goal with |- context [for_each _ line ?s] =>
          destruct (IH [] s) as (st' & Hst' & Hw) end; try done.
        -- split; simpl; [done | lia].
        -- by constructor.
        -- by rewrite take_nil.
        -- by exists st'.
Qed.

(** The terminated runs are what the line is made of: the line is its
    terminated runs, each followed by a character outside the alphabet, and a
    last run that nothing terminates. *)
Lemma terminated_runs_decompose cfg cur line :
  alphabetic cfg cur ->
  ∃ terminators rest,
    cur ++ line
    = concat (zip_with (fun run c => run ++ [c]) (terminated_runs cfg cur line)
                terminators) ++ rest
    ∧ length terminators = length (terminated_runs cfg cur line)
    ∧ Forall (alphabetic cfg) (terminated_runs cfg cur line)
    ∧ Forall (fun c => c ∉ chars cfg) terminators
    ∧ alphabetic cfg rest.
Proof.
  revert cur. induction line as [|c line IH]; intros cur Hcur; simpl.
  - exists [], cur. by rewrite app_nil_r.
  - case_bool_decide as Hc.
    + destruct (IH (cur ++ [c])) as (ts & rest & Heq & Hlen & Hruns & Hts & Hrest).
      { apply Forall_app. split; [done|]. by constructor. }
      exists ts, rest. rewrite <- Heq, <- app_assoc. done.
    + destruct (IH []) as (ts & rest & Heq & Hlen & Hruns & Hts & Hrest);
        [by constructor|].
      exists (c :: ts), rest. simpl in *. rewrite <- !app_assoc, <- Heq. simpl.
      repeat split; try done; [by rewrite Hlen | by constructor | by constructor].
Qed.

(** X1.  With an ASCII alphabet and [0 <= maxlen < PY_SSIZE_T_MAX] (a
    buffer length that [bytearray] accepts), [scanline] returns normally and
    records, under the tag it was given and in the order of the
    line, exactly the terminated runs of alphabet characters, each cut to its
    first [maxlen] characters, whose cut length is within the bounds.  It
    records nothing else, and what is left in the buffer from one run does
    not leak into the next.  The terminated runs are the maximal runs of the
    line but the last one when no terminator follows it. *)
Theorem scanline_records_terminated_runs cfg line t w :
  ascii (chars cfg) -> 0 ≤ maxlen cfg < PY_SSIZE_T_MAX ->
  scanline cfg line t w = Ok (record_all cfg t (diamonds_of cfg line) w)
  ∧ ∃ terminators rest,
      line = concat (zip_with (fun run c => run ++ [c])
                       (terminated_runs cfg [] line) terminators) ++ rest
      ∧ length terminators = length (terminated_runs cfg [] line)
      ∧ Forall (alphabetic cfg) (terminated_runs cfg [] line)
      ∧ Forall (fun c => c ∉ chars cfg) terminators
      ∧ alphabetic cfg rest.
Proof.
  intros Hascii [Hmax _]. split.
  - unfold scanline. rewrite bool_decide_false by lia.
    destruct (loop_records_runs cfg t line [] (line_start cfg w) Hascii)
      as (st & -> & Hw).
    + split; simpl; [by rewrite length_replicate | lia].
    + by constructor.
    + done.
    + by rewrite take_nil.
    + simpl. by rewrite Hw.
  - apply (terminated_runs_decompose cfg [] line). by constructor.
Qed.

Lemma scanline_records_terminated_runs_witness :
  scanline hexcfg
    (lit "a=0123456789abcdef01234567;b=0123456789abcdef0123456789abcdef;c=01"
     ++ [LF]) [CInt 7] empty_world
  = Ok (record_all hexcfg [CInt 7]
          [lit "0123456789abcdef01234567"; lit "0123456789abcdef0123456789"]
          empty_world).
Proof.
  apply (scanline_records_terminated_runs hexcfg
           (lit "a=0123456789abcdef01234567;b=0123456789abcdef0123456789abcdef;c=01"
            ++ [LF]) [CInt 7] empty_world).
  - unfold ascii. compute_done.
  - compute_done.
Defined.

(** ** Cutting a line at a terminator *)

Lemma body_same_run cfg t c st st' :
  same_run st st' ->
  match scanline_body cfg t c st, scanline_body cfg t c st' with
  | Ok s, Ok s' => same_run s s'
  | Raise e s, Raise e' s' => e = e' ∧ world s = world s'
  | _, _ => False
  end.
Proof.
  destruct st as [buf i w], st' as [buf' i' w'].
  intros (Hi & Hw & Hlen & Htake). simpl in *. subst i' w'.
  unfold scanline_body. simpl.
  repeat case_bool_decide; simpl; try done.
  - repeat split; simpl; try done; [by rewrite !length_insert|].
    destruct (decide (i < length buf)%nat) as [Hlt|Hge].
    + rewrite !(take_S_r _ _ c) by (apply list_lookup_insert_eq; lia).
      rewrite !take_insert_ge by lia. by rewrite Htake.
    + rewrite !list_insert_ge by lia. rewrite !take_ge by lia.
      rewrite !take_ge in Htake by lia. done.
  - rewrite <- Htake. destruct (utf8_decode _); simpl; [|done].
    repeat split; simpl; done.
Qed.

Lemma loop_same_run cfg t line st st' :
  same_run st st' ->
  map_result world (for_each (scanline_body cfg t) line st)
  = map_result world (for_each (scanline_body cfg t) line st').
Proof.
  revert st st'. induction line as [|c line IH]; intros st st' Hsame; simpl.
  - by destruct Hsame as (_ & -> & _).
  - pose proof (body_same_run cfg t c st st' Hsame) as Hbody.
    destruct (scanline_body cfg t c st), (scanline_body cfg t c st');
      try done; simpl.
    + by apply IH.
    + by destruct Hbody as [-> ->].
Qed.

Lemma bind_world (r : result LineState) :
  bind r (fun st => Ok (world st)) world = map_result world r.
Proof. by destruct r. Qed.

(** X2.  A line may be cut behind any character outside the alphabet:
    scanning the whole line is scanning the part up to and including that
    character and then, if that returned, the rest as a line of its own.
    The bytes an earlier run left in the buffer never reach a later run. *)
Theorem scanline_cut_at_terminator cfg l1 c l2 t w :
  c ∉ chars cfg ->
  scanline cfg (l1 ++ c :: l2) t w
  = match scanline cfg (l1 ++ [c]) t w with
    | Ok w1 => scanline cfg l2 t w1
    | Raise e w1 => Raise e w1
    end.
Proof.
  intros Hc. unfold scanline. case_bool_decide as Hneg; [done|].
  rewrite !bind_world.
  replace (l1 ++ c :: l2) with ((l1 ++ [c]) ++ l2) by (by rewrite <- app_assoc).
  rewrite for_each_app.
  pose proof (loop_buffer_ok cfg t (l1 ++ [c]) (line_start cfg w)
                (start_buffer_ok cfg w)) as Hok.
  pose proof (loop_boundary cfg t (l1 ++ [c]) (line_start cfg w)) as Hzero.
  destruct (for_each _ (l1 ++ [c]) (line_start cfg w)) as [st1|e st1]; simpl; [|done].
  rewrite bind_world.
  apply loop_same_run. simpl in Hok. destruct Hok as [Hlen _].
  assert (index st1 = 0%nat) as Hi
    by (apply Hzero; [right; by exists l1, c | done | done]).
  unfold same_run. simpl. rewrite Hi, length_replicate. by rewrite !take_0.
Qed.

Lemma scanline_cut_at_terminator_witness :
  scanline hexcfg (lit "x=0123456789abcdef01234567" ++ LF :: lit "tail") [] empty_world
  = match scanline hexcfg (lit "x=0123456789abcdef01234567" ++ [LF]) [] empty_world with
    | Ok w1 => scanline hexcfg (lit "tail") [] w1
    | Raise e w1 => Raise e w1
    end.
Proof.
  apply (scanline_cut_at_terminator hexcfg (lit "x=0123456789abcdef01234567") LF
           (lit "tail") [] empty_world).
  compute_done.
Defined.

(** ** The byte buffer gives back ASCII runs only *)

(** Decoding never lengthens, and it keeps the length only of ASCII. *)
Lemma utf8_decode_length bs d :
  utf8_decode bs = Some d ->
  (length d ≤ length bs)%nat ∧ (length d = length bs -> ascii bs).
Proof.
  remember (length bs) as n eqn:Hn. revert bs d Hn.
  induction n as [n IH] using lt_wf_ind. intros bs d Hn Hdec.
  destruct bs as [|b1 r1]; simpl in *.
  { injection Hdec as <-. subst n. split; [done | by constructor]. }
  destruct (b1 <? 128)%N eqn:Hb1.
  - destruct (utf8_decode r1) as [d1|] eqn:Hd1; [|done].
    injection Hdec as <-. subst n.
    destruct (IH (length r1) (Nat.lt_succ_diag_r _) r1 d1 eq_refl Hd1) as [Hle Heq].
    simpl. split; [lia|]. intros Hlen. constructor.
    + by apply N.ltb_lt.
    + apply Heq. lia.
  - repeat match type of Hdec with
           | (if ?b then _ else _) = _ => destruct b; [|try done]
           | match ?l with [] => _ | _ :: _ => _ end = _ => destruct l; [done|]
           | _ <$> ?o = _ =>
               let E := fresh "E" in destruct o eqn:E; [|done];
               injection Hdec as <-
           end; try done.
    all: subst n; simpl in *.
    all: match goal with
         | E : utf8_decode ?r = Some ?dr |- _ =>
             destruct (IH (length r) ltac:(lia) r dr eq_refl E) as [Hle _]
         end; split; lia.
Qed.

Lemma utf8_decode_same bs : utf8_decode bs = Some bs <-> ascii bs.
Proof.
  split; [|apply utf8_decode_ascii].
  intros Hdec. by apply (utf8_decode_length bs bs).
Qed.

Lemma run_stored_is_bytes cfg t run st st' :
  alphabetic cfg run -> buffer_ok cfg st ->
  (index st + length run ≤ Z.to_nat (maxlen cfg))%nat ->
  for_each (scanline_body cfg t) run st = Ok st' ->
  Forall (fun c => (c < 256)%N) run.
Proof.
  intros Hrun. revert st.
  induction Hrun as [|c run Hc _ IH]; intros st [Hlen Hle] Hfit; simpl in *;
    [done|].
  unfold scanline_body at 1. rewrite (bool_decide_true _ Hc).
  rewrite bool_decide_false by lia.
  case_bool_decide as Hb; [|done]. intros Hloop.
  constructor; [done|]. eapply IH; [| |exact Hloop].
  - split; simpl; [by rewrite length_insert | lia].
  - simpl. lia.
Qed.

(** X3.  For a line that is one run of alphabet characters, of a length
    within the bounds, and its terminator ([maxlen] being a buffer length
    that [bytearray] accepts, below [PY_SSIZE_T_MAX]): [scanline] records
    the run as it stands exactly when the run is ASCII.  A run with any other character is
    never recorded verbatim: the scan raises or records another text. *)
Theorem scanline_verbatim_iff_ascii cfg run c t w :
  alphabetic cfg run -> c ∉ chars cfg ->
  minlen cfg ≤ Z.of_nat (length run) ≤ maxlen cfg ->
  maxlen cfg < PY_SSIZE_T_MAX ->
  scanline cfg (run ++ [c]) t w = Ok (add_diamond cfg run t w) <-> ascii run.
Proof.
  intros Hrun Hc Hlen _. split.
  - intros Hret.
    destruct (scanline_returned cfg t _ _ _ Hret) as (Hmax & st & Hloop & _ & _).
    rewrite for_each_app in Hloop.
    destruct (for_each _ run (line_start cfg w)) as [st1|] eqn:Hst1; [|done].
    assert (Forall (fun c => (c < 256)%N) run) as Hbytes.
    { eapply (run_stored_is_bytes cfg t run (line_start cfg w));
        [done | apply start_buffer_ok | simpl; lia | exact Hst1]. }
    change (run ++ [c]) with ([] ++ run ++ [c]) in Hret.
    rewrite (scanline_trailing_run cfg t [] run c w w) in Hret; try done;
      [|by left | apply scanline_empty; lia].
    cbv zeta in Hret. rewrite Nat.min_l in Hret by lia.
    rewrite bool_decide_true in Hret by done.
    rewrite firstn_all in Hret.
    destruct (utf8_decode run) as [d|] eqn:Hd; [|done].
    apply utf8_decode_same. rewrite Hd. f_equal.
    injection Hret as Hmap _ Hhist.
    by apply app_inj_tail in Hhist as [_ [= ->]].
  - intros Hascii. change (run ++ [c]) with ([] ++ run ++ [c]).
    apply scanline_run_in_bounds; try done; [by left|].
    apply scanline_empty. lia.
Qed.

Lemma scanline_verbatim_iff_ascii_witness :
  scanline accent_cfg ([E_ACUTE] ++ [LF]) [] empty_world
  = Ok (add_diamond accent_cfg [E_ACUTE] [] empty_world)
  <-> ascii [E_ACUTE].
Proof.
  apply (scanline_verbatim_iff_ascii accent_cfg [E_ACUTE] LF [] empty_world).
  - unfold alphabetic. compute_done.
  - compute_done.
  - compute_done.
  - compute_done.
Defined.

(** ** What gets recorded, and under which tag *)

Lemma appends_refl {A} (proj : World -> list A) Q w : appends proj Q w w.
Proof. exists []. by rewrite app_nil_r. Qed.

Lemma appends_trans {A} (proj : World -> list A) Q w1 w2 w3 :
  appends proj Q w1 w2 -> appends proj Q w2 w3 -> appends proj Q w1 w3.
Proof.
  intros (n1 & H1 & HQ1) (n2 & H2 & HQ2). exists (n1 ++ n2).
  split; [by rewrite H2, H1, app_assoc | by apply Forall_app].
Qed.

Lemma appends_weaken {A} (proj : World -> list A) (Q Q' : A -> Prop) w w' :
  (∀ x, Q x -> Q' x) -> appends proj Q w w' -> appends proj Q' w w'.
Proof.
  intros HQ (new & Hnew & Hall). exists new. split; [done|].
  by eapply Forall_impl.
Qed.

Lemma appends_same {A} (proj : World -> list A) Q w w' :
  proj w' = proj w -> appends proj Q w w'.
Proof. intros Heq. exists []. by rewrite app_nil_r. Qed.

Lemma for_each_appends {A B} (proj : World -> list A) Q
    (body : B -> World -> result World) l w :
  (∀ x w', appends proj Q w' (final (body x w'))) ->
  appends proj Q w (final (for_each body l w)).
Proof.
  intros Hbody.
  apply (for_each_preserves (fun w' => appends proj Q w w') body l).
  - intros x w' Hw'. eapply appends_trans; [exact Hw' | apply Hbody].
  - apply appends_refl.
Qed.

Lemma scanline_history cfg line t w :
  appends history (fun m => diamond_like cfg m.1 ∧ m.2 = t) w
    (final (scanline cfg line t w)).
Proof.
  unfold scanline. case_bool_decide; [apply appends_refl|].
  pose proof (for_each_preserves
                (fun st => buffer_ok cfg st
                           ∧ alphabetic cfg (take (index st) (diamond_array st))
                           ∧ appends history
                               (fun m => diamond_like cfg m.1 ∧ m.2 = t) w (world st))
                (scanline_body cfg t) line) as Hloop.
  destruct (Hloop) with (s := line_start cfg w) as (_ & _ & Happ).
  - clear Hloop. intros c st ([Hlen Hle] & Halpha & Happ).
    unfold scanline_body. case_bool_decide as Hc.
    + case_bool_decide; [done|]. case_bool_decide; [|done]. simpl.
      split; [split; simpl; [by rewrite length_insert | lia]|]. split; [|done].
      rewrite (take_S_r _ _ c) by (apply list_lookup_insert_eq; lia).
      rewrite take_insert_ge by lia.
      apply Forall_app. split; [done | by constructor].
    + case_bool_decide as Hin.
      * destruct (utf8_decode _) as [d|] eqn:Hd; simpl; [|done].
        split; [split; simpl; [done | lia]|]. split; [by constructor|].
        eapply appends_trans; [exact Happ|].
        exists [(d, t)]. split; [done|]. constructor; [|done]. split; [|done].
        exists (take (index st) (diamond_array st)).
        split; [done|]. split; [|done]. rewrite length_take. lia.
      * simpl. split; [split; simpl; [done | lia]|]. split; [by constructor | done].
  - split; [apply start_buffer_ok|]. split; [by constructor | apply appends_refl].
  - by destruct (for_each _ line _).
Qed.

(** X4.  Whatever the alphabet and the line, [scanline] only ever appends
    to the recorded matches, every match it records carries the tag it was
    given, and its text is the UTF-8 decoding of a run of alphabet characters
    whose number is within the bounds.  This holds as well when the scan
    raises: what was recorded before stays. *)
Theorem scanline_records_runs_only cfg line t w :
  ∃ new,
    history (final (scanline cfg line t w)) = history w ++ new
    ∧ mapping (final (scanline cfg line t w)) = foldl record_match (mapping w) new
    ∧ Forall (fun m => m.2 = t ∧ diamond_like cfg m.1) new
    ∧ (ascii (chars cfg) ->
       Forall (fun m => alphabetic cfg m.1
                        ∧ minlen cfg ≤ Z.of_nat (length m.1) ≤ maxlen cfg) new).
Proof.
  destruct (scanline_history cfg line t w) as (new & Hnew & Hall).
  exists new. split; [done|]. split; [|split].
  - pose proof (framed_scanline cfg line t w empty_world) as Hframe.
    rewrite replay_empty in Hframe.
    rewrite Hframe, final_map_result in Hnew |- *.
    unfold replay in *. simpl in *.
    by apply app_inv_head in Hnew as ->.
  - eapply Forall_impl; [exact Hall|]. by intros m [? ?].
  - intros Hascii. eapply Forall_impl; [exact Hall|].
    intros m [(bytes & Halpha & Hlen & Hdec) _].
    rewrite utf8_decode_ascii in Hdec by (by apply (alphabetic_ascii cfg)).
    by injection Hdec as <-.
Qed.

Lemma scanline_records_runs_only_witness :
  ∃ new,
    history (final (scanline hexcfg (lit "k=0123456789abcdef01234567" ++ [LF])
                      [CInt 1] empty_world))
    = history empty_world ++ new
    ∧ Forall (fun m => alphabetic hexcfg m.1
                       ∧ minlen hexcfg ≤ Z.of_nat (length m.1) ≤ maxlen hexcfg)
        new.
Proof.
  destruct (scanline_records_runs_only hexcfg
              (lit "k=0123456789abcdef01234567" ++ [LF]) [CInt 1] empty_world)
    as (new & Hnew & _ & _ & Hascii).
  exists new. split; [exact Hnew|]. apply Hascii. unfold ascii. compute_done.
Defined.

(** ** Streams: end of stream, line numbers, warnings *)

Lemma scanline_from_empty cfg line t w :
  scanline cfg line t w = map_result (replay w) (scanline cfg line t empty_world).
Proof. by rewrite <- framed_scanline, replay_empty. Qed.

Lemma scanline_keeps_warnings cfg line t w :
  warnings (final (scanline cfg line t w)) = warnings w.
Proof.
  by apply (scanline_preserves cfg (fun w' => warnings w' = warnings w)).
Qed.

Lemma scanline_keeps_opened cfg line t w :
  opened (final (scanline cfg line t w)) = opened w.
Proof.
  by apply (scanline_preserves cfg (fun w' => opened w' = opened w)).
Qed.

Lemma scanline_nil_final cfg t w : final (scanline cfg [] t w) = w.
Proof. unfold scanline. by case_bool_decide. Qed.

(** X5.  [scanstream] stops at the first empty string that [readline]
    returns: whatever the stream would yield after it is neither read nor
    scanned, and the scan is that of the outcomes before it. *)
Theorem scanstream_stops_at_end_of_stream cfg pre post t w :
  scanstream cfg (pre ++ Line [] :: post) t w = scanstream cfg pre t w.
Proof.
  unfold scanstream. generalize 1 as count. revert w.
  induction pre as [|[line|] pre IH]; intros w count; simpl; [done| |].
  - destruct line as [|c line]; [done|].
    destruct (scanline cfg (c :: line) _ w); [apply IH | done].
  - apply IH.
Qed.

Lemma scanstream_single_line cfg line t count w :
  final (scanstream_loop cfg [Line line] t count w)
  = final (scanline cfg line (t ++ [CInt count]) w).
Proof.
  simpl. destruct line as [|c line]; [by rewrite scanline_nil_final|].
  by destruct (scanline cfg (c :: line) _ w).
Qed.

Lemma scanstream_loop_last_line cfg s line line' t count w :
  (∀ t' w', final (scanline cfg line t' w') = final (scanline cfg line' t' w')) ->
  final (scanstream_loop cfg (s ++ [Line line]) t count w)
  = final (scanstream_loop cfg (s ++ [Line line']) t count w).
Proof.
  intros Hsame. revert count w.
  induction s as [|[l|] s IH]; intros count w.
  - rewrite !app_nil_l, !scanstream_single_line. apply Hsame.
  - simpl. destruct l as [|c l]; [done|].
    destruct (scanline cfg (c :: l) _ w); [apply IH | done].
  - simpl. apply IH.
Qed.

(** X6.  [scanstream] hands each line to the line scanner as [readline]
    returned it, with no terminator added: when the last line of a stream
    ends with a run of alphabet characters and no terminator (a file whose
    last line has no newline), that run is dropped, however long it is; the
    world is left as if the line had ended before the run. *)
Theorem scanstream_drops_unterminated_run cfg s pre run t w :
  alphabetic cfg run ->
  final (scanstream cfg (s ++ [Line (pre ++ run)]) t w)
  = final (scanstream cfg (s ++ [Line pre]) t w).
Proof.
  intros Hrun. apply scanstream_loop_last_line.
  intros t' w'. by apply scanline_unterminated.
Qed.

Lemma scanstream_drops_unterminated_run_witness :
  final (scanstream hexcfg
           ([Line (lit "first" ++ [LF])]
            ++ [Line (lit "id=" ++ lit "0123456789abcdef01234567")])
           [] empty_world)
  = final (scanstream hexcfg
             ([Line (lit "first" ++ [LF])] ++ [Line (lit "id=")]) [] empty_world).
Proof.
  apply (scanstream_drops_unterminated_run hexcfg [Line (lit "first" ++ [LF])]
           (lit "id=") (lit "0123456789abcdef01234567") [] empty_world).
  unfold alphabetic. compute_done.
Defined.

Lemma scantext_as_stream_from cfg lines t start w :
  for_each (fun '(count, line) => scanline cfg (line ++ [LF]) (t ++ [CInt count]))
    (enumerate start lines) w
  = scanstream_loop cfg ((fun line => Line (line ++ [LF])) <$> lines) t start w.
Proof.
  revert start w. induction lines as [|line lines IH]; intros start w; simpl; [done|].
  destruct (line ++ [LF]) as [|c l] eqn:Hline.
  { by destruct line. }
  destruct (scanline cfg (c :: l) _ w); [apply IH | done].
Qed.

(** X7.  Scanning a string is scanning the stream of its lines: [scantext]
    on a text does what [scanstream] does on a stream that yields the pieces
    of [text.split('\n')], each with a line feed at its end.  Line numbers,
    matches and exceptions agree. *)
Theorem scantext_is_scanstream_of_lines cfg text t w :
  scantext cfg text t w
  = scanstream cfg ((fun line => Line (line ++ [LF])) <$> split_on LF text) t w.
Proof. apply scantext_as_stream_from. Qed.

(** X8.  When [scanstream] returns, it has issued exactly one warning for
    each [readline] call that failed before the end of the stream, in order,
    each naming the number of that call (counting every call, failed or not,
    from 1) and the tag of the stream; no other warning is issued. *)
Theorem scanstream_warns_once_per_failed_read cfg s t w :
  returns (scanstream cfg s t w) = true ->
  warnings (final (scanstream cfg s t w))
  = warnings w ++ ((fun k => (k, t)) <$> failed_reads 1 s).
Proof.
  unfold scanstream. generalize 1 as count. revert w.
  induction s as [|[line|] s IH]; intros w count; simpl.
  - by rewrite app_nil_r.
  - destruct line as [|c line]; [by rewrite app_nil_r|].
    pose proof (scanline_keeps_warnings cfg (c :: line) (t ++ [CInt count]) w) as Hw.
    destruct (scanline cfg (c :: line) _ w) as [w'|]; [|done].
    intros Hret. rewrite (IH _ _ Hret). simpl in Hw. by rewrite Hw.
  - intros Hret. rewrite (IH _ _ Hret). simpl. by rewrite <- app_assoc.
Qed.

Lemma scanstream_warns_once_per_failed_read_witness :
  warnings (final (scanstream hexcfg
                     [DecodeFailure; Line (lit "ok" ++ [LF]); DecodeFailure;
                      Line []; DecodeFailure]
                     [CStr (lit "a.txt")] empty_world))
  = warnings empty_world
    ++ [(1, [CStr (lit "a.txt")]); (3, [CStr (lit "a.txt")])].
Proof.
  apply (scanstream_warns_once_per_failed_read hexcfg
           [DecodeFailure; Line (lit "ok" ++ [LF]); DecodeFailure; Line [];
            DecodeFailure] [CStr (lit "a.txt")] empty_world).
  by vm_compute.
Defined.

Lemma recorded_by_scanline cfg line t m :
  m ∈ history (final (scanline cfg line t empty_world)) ->
  diamond_like cfg m.1 ∧ m.2 = t.
Proof.
  destruct (scanline_history cfg line t empty_world) as (new & -> & Hall).
  simpl. rewrite Forall_forall in Hall. apply Hall.
Qed.

Lemma scanline_history_from_empty cfg line t w :
  history (final (scanline cfg line t w))
  = history w ++ history (final (scanline cfg line t empty_world)).
Proof. by rewrite scanline_from_empty, final_map_result. Qed.

Lemma scanstream_loop_history cfg s t count w :
  appends history
    (fun m => ∃ k line,
                s !! k = Some (Line line)
                ∧ m.2 = t ++ [CInt (count + Z.of_nat k)]
                ∧ m ∈ history (final (scanline cfg line m.2 empty_world)))
    w (final (scanstream_loop cfg s t count w)).
Proof.
  revert count w. induction s as [|o s IH]; intros count w; [apply appends_refl|].
  assert (∀ w', appends history
            (fun m => ∃ k line,
                        (o :: s) !! k = Some (Line line)
                        ∧ m.2 = t ++ [CInt (count + Z.of_nat k)]
                        ∧ m ∈ history (final (scanline cfg line m.2 empty_world)))
            w' (final (scanstream_loop cfg s t (count + 1) w'))) as Hrest.
  { intros w'. eapply appends_weaken; [|apply IH].
    intros m (k & line & Hk & Htag & Hin). exists (S k), line.
    split; [done|]. split; [|done]. rewrite Htag. do 3 f_equal. lia. }
  destruct o as [[|c line]|]; simpl.
  - apply appends_refl.
  - assert (appends history
              (fun m => ∃ k line0,
                          (Line (c :: line) :: s) !! k = Some (Line line0)
                          ∧ m.2 = t ++ [CInt (count + Z.of_nat k)]
                          ∧ m ∈ history (final (scanline cfg line0 m.2 empty_world)))
              w (final (scanline cfg (c :: line) (t ++ [CInt count]) w))) as Hline.
    { exists (history (final (scanline cfg (c :: line) (t ++ [CInt count])
                                empty_world))).
      split; [apply scanline_history_from_empty|].
      apply Forall_forall. intros m Hm. exists 0%nat, (c :: line).
      destruct (recorded_by_scanline _ _ _ _ Hm) as [_ Htag].
      split; [done|]. rewrite Htag. split; [by rewrite Z.add_0_r | done]. }
    destruct (scanline cfg (c :: line) _ w) as [w'|e w']; simpl in *; [|done].
    eapply appends_trans; [exact Hline | apply Hrest].
  - eapply appends_trans; [|apply Hrest]. by apply appends_same.
Qed.

(** X9.  Every match that [scanstream] records carries the tag of the
    stream extended by a line number, and that number is the position, from
    1 and counting failed reads too, of the line in which the line scanner
    finds the match; its text is what the line scanner finds in that line.
    The earlier matches stay, whether the scan returns or raises. *)
Theorem scanstream_matches_carry_line_numbers cfg s t w :
  ∃ new,
    history (final (scanstream cfg s t w)) = history w ++ new
    ∧ Forall (fun m => ∃ k line,
                         s !! k = Some (Line line)
                         ∧ m.2 = t ++ [CInt (Z.of_nat k + 1)]
                         ∧ m ∈ history (final (scanline cfg line m.2 empty_world))
                         ∧ diamond_like cfg m.1)
        new.
Proof.
  destruct (scanstream_loop_history cfg s t 1 w) as (new & Hnew & Hall).
  exists new. split; [done|]. eapply Forall_impl; [exact Hall|].
  intros m (k & line & Hk & Htag & Hin). exists k, line.
  split; [done|]. split; [by rewrite Htag, Z.add_comm|]. split; [done|].
  by destruct (recorded_by_scanline _ _ _ _ Hin).
Qed.

(** X10.  Every match that [scantext] records carries the caller's tag
    extended by a line number between 1 and the number of pieces of
    [text.split('\n')], and its text is what the line scanner finds in the
    piece of that number, terminated by a line feed. *)
Theorem scantext_matches_carry_line_numbers cfg text t w :
  ∃ new,
    history (final (scantext cfg text t w)) = history w ++ new
    ∧ Forall (fun m => ∃ k line,
                         split_on LF text !! k = Some line
                         ∧ m.2 = t ++ [CInt (Z.of_nat k + 1)]
                         ∧ 1 ≤ Z.of_nat k + 1 ≤ Z.of_nat (length (split_on LF text))
                         ∧ m ∈ history (final (scanline cfg (line ++ [LF]) m.2
                                                 empty_world)))
        new.
Proof.
  unfold scantext, scantext_with. cbv zeta. rewrite scantext_as_stream_from.
  destruct (scanstream_loop_history cfg
              ((fun line => Line (line ++ [LF])) <$> split_on LF text) t 1 w)
    as (new & Hnew & Hall).
  exists new. split; [done|]. eapply Forall_impl; [exact Hall|].
  intros m (k & line & Hk & Htag & Hin).
  rewrite list_lookup_fmap in Hk.
  destruct (split_on LF text !! k) as [piece|] eqn:Hpiece; [|done].
  injection Hk as <-. exists k, piece.
  split; [done|]. split; [by rewrite Htag, Z.add_comm|]. split; [|done].
  apply lookup_lt_Some in Hpiece. lia.
Qed.

(** ** Files and directories: what is visited, opened and tagged *)

Lemma for_each_fmap {A B S} (f : A -> B) (body : B -> S -> result S) l s :
  for_each body (f <$> l) s = for_each (fun x => body (f x)) l s.
Proof.
  revert s. induction l as [|x l IH]; intros s; simpl; [done|].
  destruct (body (f x) s); [apply IH | done].
Qed.

Lemma for_each_concat {A S} (body : A -> S -> result S) ls s :
  for_each body (concat ls) s = for_each (fun l => for_each body l) ls s.
Proof.
  revert s. induction ls as [|l ls IH]; intros s; simpl; [done|].
  rewrite for_each_app. destruct (for_each body l s); [apply IH | done].
Qed.

Lemma for_each_filter {A S} (p : A -> bool) (body : A -> S -> result S) l s :
  for_each (fun x => if p x then body x else Ok) l s
  = for_each body (List.filter p l) s.
Proof.
  revert s. induction l as [|x l IH]; intros s; simpl; [done|].
  destruct (p x); simpl; [|apply IH].
  destruct (body x s); [apply IH | done].
Qed.

Lemma for_each_ext {A S} (body body' : A -> S -> result S) l s :
  (∀ x s', body x s' = body' x s') -> for_each body l s = for_each body' l s.
Proof.
  intros Hext. revert s. induction l as [|x l IH]; intros s; simpl; [done|].
  rewrite Hext. destruct (body' x s); [apply IH | done].
Qed.

Lemma scandir_visits cfg env directory deep t include exclude w :
  scandir cfg env directory deep t include exclude w
  = match visited env directory deep with
    | None => Raise OSError w
    | Some paths =>
        for_each (fun path => scanfile cfg env path include exclude
                                (Some directory) (t ++ [CStr directory]))
          paths w
    end.
Proof.
  unfold scandir, visited. destruct deep.
  - rewrite for_each_concat, for_each_fmap.
    apply for_each_ext. intros [[root dirs] files] w'. simpl.
    by rewrite for_each_fmap.
  - destruct (os_listdir env directory) as [entries|]; [|done].
    by rewrite <- for_each_filter, for_each_fmap.
Qed.

(** X11.  [scandir] is [scanfile] over the files of the directory, one after
    the other, each with the directory as the base of its relative path and
    the caller's tag extended by the directory.  In a deep scan the files are
    those of every triple of [os.walk], joined to the root of their triple,
    in the order of the walk; in a shallow scan they are the entries of
    [os.listdir] that [os.path.isfile] accepts.  When [os.listdir] raises,
    the scan raises with the world unchanged.  The directory is a name that
    the operating system takes ([fs_name]: on a name with a NUL character
    [os.listdir] and [os.walk] raise [ValueError] instead). *)
Theorem scandir_is_scanfile_over_visited cfg env directory deep t include exclude w :
  fs_name directory ->
  (∀ paths,
     visited env directory deep = Some paths ->
     scandir cfg env directory deep t include exclude w
     = for_each (fun path => scanfile cfg env path include exclude
                               (Some directory) (t ++ [CStr directory]))
         paths w)
  ∧ (visited env directory deep = None ->
     deep = false ∧ os_listdir env directory = None
     ∧ scandir cfg env directory deep t include exclude w = Raise OSError w).
Proof.
  intros _. rewrite scandir_visits. split.
  - by intros paths ->.
  - intros Hnone. rewrite Hnone. unfold visited in Hnone.
    destruct deep; [done|].
    by destruct (os_listdir env directory).
Qed.

Lemma scandir_is_scanfile_over_visited_witness :
  scandir hexcfg demo_env (lit "repo") true [] FNone FNone empty_world
  = for_each (fun path => scanfile hexcfg demo_env path FNone FNone
                            (Some (lit "repo")) ([] ++ [CStr (lit "repo")]))
      [lit "repo/a.txt"; lit "repo/b.lock"] empty_world.
Proof.
  apply (scandir_is_scanfile_over_visited hexcfg demo_env (lit "repo") true []
           FNone FNone empty_world).
  - unfold fs_name. repeat constructor; compute_done.
  - reflexivity.
Defined.

(** X12.  [scandir] does not survive a failing file: when the files before
    some file are scanned without an error and [scanfile] raises on that
    file, [scandir] raises the same exception, leaves the world as that call
    left it, and none of the files after it is opened or scanned.  A file
    that passes the extension filter and that [open] refuses is such a file:
    the scan ends with [OSError] there. *)
Theorem scandir_stops_at_first_failure cfg env directory deep t include exclude
    before path after w w1 :
  visited env directory deep = Some (before ++ path :: after) ->
  for_each (fun p => scanfile cfg env p include exclude (Some directory)
                       (t ++ [CStr directory])) before w = Ok w1 ->
  (∀ e w2,
     scanfile cfg env path include exclude (Some directory)
       (t ++ [CStr directory]) w1 = Raise e w2 ->
     scandir cfg env directory deep t include exclude w = Raise e w2)
  ∧ (check_extension path include exclude = true ->
     is_Some (os_path_relpath env path directory) ->
     os_open env path = None ->
     scandir cfg env directory deep t include exclude w
     = Raise OSError (open_call path w1)).
Proof.
  intros Hvisited Hbefore.
  assert (∀ e w2,
            scanfile cfg env path include exclude (Some directory)
              (t ++ [CStr directory]) w1 = Raise e w2 ->
            scandir cfg env directory deep t include exclude w = Raise e w2)
    as Hstop.
  { intros e w2 Hfile.
    rewrite scandir_visits, Hvisited, for_each_app, Hbefore. simpl.
    by rewrite Hfile. }
  split; [exact Hstop|].
  intros Hcheck [rel Hrel] Hopen. apply Hstop.
  unfold scanfile. by rewrite Hcheck, Hrel, Hopen.
Qed.

Lemma scandir_stops_at_first_failure_witness :
  scandir hexcfg locked_env (lit "repo") true [] FNone FNone empty_world
  = Raise OSError
      (open_call (lit "repo/b.lock")
         (final (scanfile hexcfg locked_env (lit "repo/a.txt") FNone FNone
                   (Some (lit "repo")) [CStr (lit "repo")] empty_world)))
  ∧ opened (final (scandir hexcfg locked_env (lit "repo") true [] FNone FNone
                     empty_world))
    = [lit "repo/a.txt"; lit "repo/b.lock"].
Proof.
  split; [|by vm_compute].
  apply (scandir_stops_at_first_failure hexcfg locked_env (lit "repo") true []
           FNone FNone [lit "repo/a.txt"] (lit "repo/b.lock") [lit "repo/c.txt"]
           empty_world).
  - reflexivity.
  - by vm_compute.
  - reflexivity.
  - by eexists.
  - by vm_compute.
Defined.

Lemma scanstream_loop_keeps_opened cfg s t count w :
  opened (final (scanstream_loop cfg s t count w)) = opened w.
Proof.
  by apply (scanstream_loop_preserves cfg (fun w' => opened w' = opened w)).
Qed.

Lemma scanfile_opened cfg env file include exclude relpath t w :
  appends opened (fun f => f = file ∧ check_extension file include exclude = true)
    w (final (scanfile cfg env file include exclude relpath t w)).
Proof.
  unfold scanfile.
  destruct (check_extension file include exclude) eqn:Hcheck; simpl;
    [|apply appends_refl].
  destruct (match relpath with None => _ | Some _ => _ end); [|apply appends_refl].
  exists [file]. split; [|by repeat constructor].
  destruct (os_open env file); simpl; [|done].
  unfold scanstream. by rewrite scanstream_loop_keeps_opened.
Qed.

(** X13.  [scandir] only ever calls [open] on files it visits and whose
    extension the filter accepts: every path it adds to the files opened is
    one of the visited paths, in the order of the visit, and
    [check_extension] returns [True] for it.  A file whose extension is
    listed in [include] or in [exclude] is never opened, whether the scan
    returns or raises. *)
Theorem scandir_opens_only_accepted_files cfg env directory deep t include
    exclude w :
  ∃ new,
    opened (final (scandir cfg env directory deep t include exclude w))
    = opened w ++ new
    ∧ Forall (fun f => check_extension f include exclude = true
                       ∧ ¬ listed (suffix f) include
                       ∧ ¬ listed (suffix f) exclude
                       ∧ ∃ paths, visited env directory deep = Some paths
                                  ∧ f ∈ paths) new.
Proof.
  rewrite scandir_visits.
  destruct (visited env directory deep) as [paths|] eqn:Hvisited;
    [|exists []; by rewrite app_nil_r].
  assert (∀ known w',
            appends opened
              (fun f => check_extension f include exclude = true ∧ f ∈ known ++ paths)
              w'
              (final (for_each (fun path => scanfile cfg env path include exclude
                                              (Some directory) (t ++ [CStr directory]))
                        paths w'))) as Hloop.
  { clear Hvisited. induction paths as [|path paths IH]; intros known w'; simpl.
    - apply appends_refl.
    - pose proof (scanfile_opened cfg env path include exclude (Some directory)
                    (t ++ [CStr directory]) w') as Hfile.
      assert (appends opened
                (fun f => check_extension f include exclude = true
                          ∧ f ∈ known ++ path :: paths) w'
                (final (scanfile cfg env path include exclude (Some directory)
                          (t ++ [CStr directory]) w'))) as Hfile'.
      { eapply appends_weaken; [|exact Hfile]. intros f [-> Hcheck].
        split; [done|]. apply elem_of_app. right. by left. }
      destruct (scanfile cfg env path include exclude (Some directory) _ w')
        as [w''|]; simpl in *; [|done].
      eapply appends_trans; [exact Hfile'|].
      specialize (IH (known ++ [path]) w''). rewrite <- app_assoc in IH. done. }
  destruct (Hloop [] w) as (new & Hnew & Hall).
  exists new. split; [done|]. eapply Forall_impl; [exact Hall|].
  intros f [Hcheck Hin]. split; [done|].
  assert (¬ listed (suffix f) include ∧ ¬ listed (suffix f) exclude) as [? ?].
  { unfold check_extension in Hcheck. cbv zeta in Hcheck.
    destruct include as [|s|l], exclude as [|s'|l']; simpl in *;
      repeat case_bool_decide; rewrite ?list_elem_of_singleton in *;
        try done; tauto. }
  do 2 (split; [done|]). by exists paths.
Qed.

Lemma scanfile_history cfg env file include exclude relpath t w :
  appends history
    (fun m => ∃ filetag s k line,
                match relpath with
                | None => filetag = file
                | Some base => os_path_relpath env file base = Some filetag
                end
                ∧ check_extension file include exclude = true
                ∧ os_open env file = Some s
                ∧ s !! k = Some (Line line)
                ∧ m.2 = t ++ [CStr filetag; CInt (Z.of_nat k + 1)]
                ∧ m ∈ history (final (scanline cfg line m.2 empty_world)))
    w (final (scanfile cfg env file include exclude relpath t w)).
Proof.
  unfold scanfile.
  destruct (check_extension file include exclude) eqn:Hcheck; simpl;
    [|apply appends_refl].
  destruct (match relpath with None => _ | Some _ => _ end) as [filetag|] eqn:Htag;
    [|apply appends_refl].
  destruct (os_open env file) as [s|] eqn:Hopen; simpl; [|by apply appends_same].
  eapply appends_trans; [by apply (appends_same _ _ w (open_call file w))|].
  eapply appends_weaken; [|apply scanstream_loop_history].
  intros m (k & line & Hk & Hm & Hin). exists filetag, s, k, line.
  split; [by destruct relpath; simplify_eq|].
  do 3 (split; [done|]). split; [|done].
  rewrite Hm, <- app_assoc. simpl.
  by replace (1 + Z.of_nat k) with (Z.of_nat k + 1) by lia.
Qed.

Lemma for_each_appends_in {A B} (proj : World -> list A) (Q : B -> A -> Prop)
    (body : B -> World -> result World) l w :
  (∀ x w', appends proj (Q x) w' (final (body x w'))) ->
  appends proj (fun a => ∃ x, x ∈ l ∧ Q x a) w (final (for_each body l w)).
Proof.
  intros Hbody. revert w. induction l as [|x l IH]; intros w; simpl.
  - apply appends_refl.
  - assert (appends proj (fun a => ∃ y, y ∈ x :: l ∧ Q y a) w (final (body x w)))
      as Hx.
    { eapply appends_weaken; [|apply Hbody]. intros a Ha. exists x.
      split; [by left | done]. }
    destruct (body x w) as [w'|]; simpl in *; [|done].
    eapply appends_trans; [exact Hx|].
    eapply appends_weaken; [|apply IH]. intros a (y & Hy & Ha). exists y.
    split; [by right | done].
Qed.

(** X14.  Every match that [scanfile] or [scandir] records is tagged with
    its place.  For [scanfile] the tag is the caller's tag, then the file
    (relative to the base when one is given), then the number of the line;
    for [scandir] it is the caller's tag, then the directory, then the path
    of the file relative to the directory, then the number of the line.  The
    file is one that passed the extension filter and was opened, the line is
    the line of that number in it, and the text is what the line scanner
    finds in that line. *)
Theorem matches_are_tagged_with_their_place cfg env :
  (∀ file include exclude relpath t w, ∃ new,
     history (final (scanfile cfg env file include exclude relpath t w))
     = history w ++ new
     ∧ Forall (fun m => ∃ filetag s k line,
                 match relpath with
                 | None => filetag = file
                 | Some base => os_path_relpath env file base = Some filetag
                 end
                 ∧ check_extension file include exclude = true
                 ∧ os_open env file = Some s
                 ∧ s !! k = Some (Line line)
                 ∧ m.2 = t ++ [CStr filetag; CInt (Z.of_nat k + 1)]
                 ∧ m ∈ history (final (scanline cfg line m.2 empty_world))) new)
  ∧ (∀ directory deep include exclude t w, ∃ new,
       history (final (scandir cfg env directory deep t include exclude w))
       = history w ++ new
       ∧ Forall (fun m => ∃ paths path rel s k line,
                   visited env directory deep = Some paths
                   ∧ path ∈ paths
                   ∧ os_path_relpath env path directory = Some rel
                   ∧ check_extension path include exclude = true
                   ∧ os_open env path = Some s
                   ∧ s !! k = Some (Line line)
                   ∧ m.2 = t ++ [CStr directory; CStr rel; CInt (Z.of_nat k + 1)]
                   ∧ m ∈ history (final (scanline cfg line m.2 empty_world))) new).
Proof.
  split.
  - intros file include exclude relpath t w. apply scanfile_history.
  - intros directory deep include exclude t w. rewrite scandir_visits.
    destruct (visited env directory deep) as [paths|] eqn:Hvisited;
      [|exists []; by rewrite app_nil_r].
    eapply appends_weaken;
      [|apply (for_each_appends_in history
                 (fun path m => ∃ filetag s k line,
                    os_path_relpath env path directory = Some filetag
                    ∧ check_extension path include exclude = true
                    ∧ os_open env path = Some s
                    ∧ s !! k = Some (Line line)
                    ∧ m.2 = (t ++ [CStr directory])
                            ++ [CStr filetag; CInt (Z.of_nat k + 1)]
                    ∧ m ∈ history (final (scanline cfg line m.2 empty_world))));
       intros path w'; apply scanfile_history].
    intros m (path & Hpath & rel & s & k & line & Hrel & Hcheck & Hopen & Hk
              & Hm & Hin).
    exists paths, path, rel, s, k, line.
    do 6 (split; [done|]). split; [|done]. by rewrite Hm, <- app_assoc.
Qed.

Example scandir_tags_example :
  history (final (scandir hexcfg demo_env (lit "repo") true [CStr (lit "run 1")]
                    FNone FNone empty_world))
  = [(lit "0123456789abcdef01234567",
      [CStr (lit "run 1"); CStr (lit "repo"); CStr (lit "a.txt"); CInt 1]);
     (lit "0123456789abcdef01234567",
      [CStr (lit "run 1"); CStr (lit "repo"); CStr (lit "b.lock"); CInt 1])].
Proof. by vm_compute. Qed.

(** ** What the mapping can hold *)

Lemma scanstream_loop_like cfg s t count w :
  appends history (fun m => diamond_like cfg m.1) w
    (final (scanstream_loop cfg s t count w)).
Proof.
  eapply appends_weaken; [|apply scanstream_loop_history].
  intros m (k & line & _ & _ & Hin).
  by destruct (recorded_by_scanline _ _ _ _ Hin).
Qed.

Lemma scantext_like cfg text t w :
  appends history (fun m => diamond_like cfg m.1) w (final (scantext cfg text t w)).
Proof.
  unfold scantext, scantext_with. cbv zeta. rewrite scantext_as_stream_from.
  apply scanstream_loop_like.
Qed.

Lemma scanfile_like cfg env file include exclude relpath t w :
  appends history (fun m => diamond_like cfg m.1) w
    (final (scanfile cfg env file include exclude relpath t w)).
Proof.
  eapply appends_weaken; [|apply scanfile_history].
  intros m (filetag & s & k & line & _ & _ & _ & _ & _ & Hin).
  by destruct (recorded_by_scanline _ _ _ _ Hin).
Qed.

Lemma run_like cfg o w :
  is_scan o = true ->
  appends history (fun m => diamond_like cfg m.1) w (final (run cfg o w)).
Proof.
  intros Hscan. destruct o as [src tg| | | | | |]; simpl; try done.
  - destruct src; simpl; try apply appends_refl.
    + apply scantext_like.
    + apply scanstream_loop_like.
  - apply scantext_like.
  - rewrite scandir_visits. destruct (visited _ _ _); [|apply appends_refl].
    apply for_each_appends. intros path w'. apply scanfile_like.
  - apply scanfile_like.
  - apply scanstream_loop_like.
  - eapply appends_weaken; [|apply scanline_history]. by intros m [? _].
Qed.

Lemma scanned_reachable cfg w : scanned cfg w -> reachable cfg w.
Proof. induction 1; [apply reachable_init | by apply reachable_step]. Qed.

Lemma scanned_history_like cfg w :
  scanned cfg w -> Forall (fun m => diamond_like cfg m.1) (history w).
Proof.
  induction 1 as [|o w Hscan _ IH]; [by constructor|].
  destruct (run_like cfg o w Hscan) as (new & -> & Hnew). by apply Forall_app.
Qed.

(** X15.  An engine that is only driven through its scan methods ([scan],
    [scantext], [scandir], [scanfile], [scanstream], [scanline]), in any
    order and whether they return or raise, never holds a key that is not
    the UTF-8 decoding of a run of alphabet characters whose number is within
    the bounds.  With an ASCII alphabet every key is a string over the
    alphabet whose length is between [minlen] and [maxlen]. *)
Theorem index_holds_runs_only cfg w :
  scanned cfg w ->
  ∀ d, d ∈ dom (mapping w) ->
       diamond_like cfg d
       ∧ (ascii (chars cfg) ->
          alphabetic cfg d ∧ minlen cfg ≤ Z.of_nat (length d) ≤ maxlen cfg).
Proof.
  intros Hscanned d Hd.
  pose proof (reachable_grouped cfg w (scanned_reachable cfg w Hscanned) d) as Hkey.
  apply elem_of_dom in Hd as [ts Hts]. rewrite Hts in Hkey.
  assert (∃ t, (d, t) ∈ history w) as [t Hin].
  { apply tags_of_recorded. intros Hnil. by rewrite Hnil in Hkey. }
  pose proof (scanned_history_like cfg w Hscanned) as Hall.
  rewrite Forall_forall in Hall. specialize (Hall _ Hin). simpl in Hall.
  split; [done|]. intros Hascii.
  destruct Hall as (bytes & Halpha & Hlen & Hdec).
  rewrite utf8_decode_ascii in Hdec by (by apply (alphabetic_ascii cfg)).
  by injection Hdec as <-.
Qed.

Lemma index_holds_runs_only_witness :
  alphabetic hexcfg (lit "0123456789abcdef01234567")
  ∧ minlen hexcfg ≤ Z.of_nat (length (lit "0123456789abcdef01234567"))
    ≤ maxlen hexcfg.
Proof.
  apply (index_holds_runs_only hexcfg
           (final (run hexcfg
                     (OpScantext (lit "key=0123456789abcdef01234567") []) empty_world))).
  - apply scanned_step; [reflexivity | apply scanned_init].
  - apply elem_of_dom. eexists. vm_compute. reflexivity.
  - unfold ascii. compute_done.
Defined.

(** ** Operations on an engine that already holds matches *)

Lemma lookup_replay w0 w d :
  mapping (replay w0 w) !! d
  = match tags_of d (history w) with
    | [] => mapping w0 !! d
    | ts => Some (default [] (mapping w0 !! d) ++ ts)
    end.
Proof. apply lookup_foldl_record_match. Qed.

Lemma returns_map_result {S T} (f : S -> T) (r : result S) :
  returns (map_result f r) = returns r.
Proof. by destruct r. Qed.

(** X16.  An operation does to an engine that already holds matches what
    it does to a new one.  It returns or raises alike; it appends the same
    matches, warnings, opened files and printed lines to those that are
    there; and for every text it leaves the key as it was when it records no
    match for the text, and with the recorded tags appended when it does.
    What the engine holds never changes what a scan finds. *)
Theorem operations_act_alike cfg o w :
  run cfg o w = map_result (replay w) (run cfg o empty_world)
  ∧ returns (run cfg o w) = returns (run cfg o empty_world)
  ∧ history (final (run cfg o w))
    = history w ++ history (final (run cfg o empty_world))
  ∧ warnings (final (run cfg o w))
    = warnings w ++ warnings (final (run cfg o empty_world))
  ∧ opened (final (run cfg o w))
    = opened w ++ opened (final (run cfg o empty_world))
  ∧ stdout (final (run cfg o w))
    = stdout w ++ stdout (final (run cfg o empty_world))
  ∧ ∀ d, mapping (final (run cfg o w)) !! d
         = match tags_of d (history (final (run cfg o empty_world))) with
           | [] => mapping w !! d
           | ts => Some (default [] (mapping w !! d) ++ ts)
           end.
Proof.
  pose proof (run_from_empty cfg o w) as Hrun.
  split; [done|]. rewrite Hrun, returns_map_result, final_map_result.
  split; [done|]. do 4 (split; [done|]).
  intros d. apply lookup_replay.
Qed.

(** X17.  The order of two operations that are given no stream object
    (a stream is at its end after the first scan) matters to the order of the
    tags only.  Run one after the other on the same engine, in either order,
    two such operations leave the same keys, for every key tag lists that are
    permutations of each other (the tags of the operation run first come
    first), and the same warnings and opened files up to their order.  An
    operation run twice records every match twice: each tag list it extends
    is extended by the same tags again. *)
Theorem operations_commute_up_to_order cfg o1 o2 w :
  holds_no_stream o1 = true -> holds_no_stream o2 = true ->
  let wa := final (run cfg o2 (final (run cfg o1 w))) in
  let wb := final (run cfg o1 (final (run cfg o2 w))) in
  dom (mapping wa) = dom (mapping wb)
  ∧ (∀ d, default [] (mapping wa !! d) ≡ₚ default [] (mapping wb !! d))
  ∧ history wa ≡ₚ history wb
  ∧ warnings wa ≡ₚ warnings wb
  ∧ opened wa ≡ₚ opened wb
  ∧ (∀ d, default [] (mapping (final (run cfg o1 (final (run cfg o1 w)))) !! d)
          = default [] (mapping w !! d)
            ++ tags_of d (history (final (run cfg o1 empty_world)))
            ++ tags_of d (history (final (run cfg o1 empty_world)))).
Proof.
  intros _ _ wa wb. subst wa wb.
  rewrite (run_from_empty cfg o2 (final (run cfg o1 w))).
  rewrite (run_from_empty cfg o1 (final (run cfg o2 w))).
  rewrite (run_from_empty cfg o1 (final (run cfg o1 w))).
  rewrite (run_from_empty cfg o1 w), (run_from_empty cfg o2 w).
  rewrite !final_map_result.
  set (w1 := final (run cfg o1 empty_world)).
  set (w2 := final (run cfg o2 empty_world)).
  assert (∀ d, default [] (mapping (replay (replay w w1) w2) !! d)
               = default [] (mapping w !! d)
                 ++ tags_of d (history w1) ++ tags_of d (history w2)) as Hlookup.
  { intros d. rewrite !lookup_replay.
    destruct (tags_of d (history w1)), (tags_of d (history w2)); simpl;
      by rewrite ?app_nil_r, <- ?app_assoc. }
  assert (∀ d, default [] (mapping (replay (replay w w2) w1) !! d)
               = default [] (mapping w !! d)
                 ++ tags_of d (history w2) ++ tags_of d (history w1)) as Hlookup'.
  { intros d. rewrite !lookup_replay.
    destruct (tags_of d (history w1)), (tags_of d (history w2)); simpl;
      by rewrite ?app_nil_r, <- ?app_assoc. }
  split; [|split; [|split; [|split; [|split]]]].
  - apply set_eq. intros d. rewrite !elem_of_dom, !lookup_replay.
    destruct (tags_of d (history w1)), (tags_of d (history w2)); simpl;
      unfold is_Some; split; intros [x Hx]; eauto.
  - intros d. rewrite Hlookup, Hlookup'.
    apply Permutation_app_head, Permutation_app_comm.
  - simpl. rewrite <- !app_assoc.
    apply Permutation_app_head, Permutation_app_comm.
  - simpl. rewrite <- !app_assoc.
    apply Permutation_app_head, Permutation_app_comm.
  - simpl. rewrite <- !app_assoc.
    apply Permutation_app_head, Permutation_app_comm.
  - intros d. rewrite !lookup_replay.
    destruct (tags_of d (history w1)); simpl; by rewrite ?app_nil_r, <- ?app_assoc.
Qed.

Lemma operations_commute_up_to_order_witness :
  let o1 := OpScantext (lit "0123456789abcdef01234567") [CStr (lit "a")] in
  let o2 := OpScanfile demo_env (lit "a.txt") FNone FNone None [] in
  history (final (run hexcfg o2 (final (run hexcfg o1 empty_world))))
  ≡ₚ history (final (run hexcfg o1 (final (run hexcfg o2 empty_world))))
  ∧ default [] (mapping (final (run hexcfg o1 (final (run hexcfg o1 empty_world))))
                !! lit "0123456789abcdef01234567")
    = [[CStr (lit "a"); CInt 1]; [CStr (lit "a"); CInt 1]].
Proof.
  intros o1 o2.
  destruct (operations_commute_up_to_order hexcfg o1 o2 empty_world)
    as (_ & _ & Hhistory & _ & _ & Htwice); [reflexivity | reflexivity |].
  split; [exact Hhistory|].
  refine (eq_trans (Htwice (lit "0123456789abcdef01234567")) _).
  vm_compute. reflexivity.
Defined.

(** ** When a scan raises, and when it can record nothing *)

(** X18.  With an ASCII alphabet and [0 <= maxlen < PY_SSIZE_T_MAX] (a
    buffer length that [bytearray] accepts) no scan of text raises:
    [scanline], [scantext] and [scan] of a string return normally on every
    input.  [scanfile], on a file name that the operating system takes
    ([fs_name]), then raises only what the file system raises: [OSError] when
    [open] refuses the file, [ValueError] when [os.path.relpath] does. *)
Theorem ascii_engine_raises_only_for_files cfg :
  ascii (chars cfg) -> 0 ≤ maxlen cfg < PY_SSIZE_T_MAX ->
  (∀ line t w, returns (scanline cfg line t w) = true)
  ∧ (∀ text t w, returns (scantext cfg text t w) = true)
  ∧ (∀ text tg w, returns (scan cfg (SourceStr text) tg w) = true)
  ∧ (∀ env file include exclude relpath t w e w',
       fs_name file ->
       scanfile cfg env file include exclude relpath t w = Raise e w' ->
       check_extension file include exclude = true
       ∧ ((e = OSError ∧ os_open env file = None ∧ w' = open_call file w)
          ∨ (e = ValueError ∧ w' = w
             ∧ ∃ base, relpath = Some base
                       ∧ os_path_relpath env file base = None))).
Proof.
  intros Hascii [Hmax _].
  assert (∀ line t w, returns (scanline cfg line t w) = true) as Hline.
  { intros line t w. by destruct (scanline_total cfg Hascii line t w Hmax) as [w' ->]. }
  assert (∀ s t count w, returns (scanstream_loop cfg s t count w) = true) as Hstream.
  { intros s t count w. apply scanstream_loop_returns. intros. apply Hline. }
  assert (∀ text t w, returns (scantext cfg text t w) = true) as Htext.
  { intros text t w. unfold scantext, scantext_with. cbv zeta.
    rewrite scantext_as_stream_from. apply Hstream. }
  split; [done|]. split; [done|]. split.
  - intros text tg w. simpl. apply Htext.
  - intros env file include exclude relpath t w e w' _. unfold scanfile.
    destruct (check_extension file include exclude); simpl; [|done].
    destruct relpath as [base|]; simpl.
    + destruct (os_path_relpath env file base) as [filetag|] eqn:Hrel.
      * destruct (os_open env file) as [s|] eqn:Hopen.
        -- intros Hraise.
           pose proof (Hstream s (t ++ [CStr filetag]) 1 (open_call file w)) as Hret.
           unfold scanstream in Hraise. by rewrite Hraise in Hret.
        -- intros [= <- <-]. split; [done|]. by left.
      * intros [= <- <-]. split; [done|]. right. do 2 (split; [done|]).
        by exists base.
    + destruct (os_open env file) as [s|] eqn:Hopen.
      * intros Hraise.
        pose proof (Hstream s (t ++ [CStr file]) 1 (open_call file w)) as Hret.
        unfold scanstream in Hraise. by rewrite Hraise in Hret.
      * intros [= <- <-]. split; [done|]. by left.
Qed.

Lemma ascii_engine_raises_only_for_files_witness :
  returns (scantext hexcfg (lit "0123456789abcdef01234567") [] empty_world) = true
  ∧ returns (scan hexcfg (SourceStr (lit "0123456789abcdef01234567"))
               (TagOther (CStr (lit "a"))) empty_world)
    = true.
Proof.
  assert (ascii (chars hexcfg)) as Hascii by (unfold ascii; compute_done).
  assert (0 ≤ maxlen hexcfg < PY_SSIZE_T_MAX) as Hmax by compute_done.
  destruct (ascii_engine_raises_only_for_files hexcfg Hascii Hmax)
    as (_ & Htext & Hscan & _).
  split; [apply Htext | apply Hscan].
Defined.

Lemma no_diamond_like cfg d :
  maxlen cfg < minlen cfg ∨ maxlen cfg < 0 -> ¬ diamond_like cfg d.
Proof. intros Hbad (bytes & _ & Hlen & _). lia. Qed.

(** X19.  An engine whose bounds admit no length ([maxlen < minlen], or a
    negative [maxlen]) never records anything: whatever scan operation is run
    on it, on whatever input and whether it returns or raises, the recorded
    matches and the mapping stay as they were.  With a negative [maxlen] that
    fits the index type of the interpreter (not below [-PY_SSIZE_T_MAX - 1])
    every [scanline] call raises [ValueError], and so does every [scantext]
    call, the one on the empty text included. *)
Theorem unsatisfiable_bounds_record_nothing cfg :
  maxlen cfg < minlen cfg ∨ maxlen cfg < 0 ->
  (∀ o w, is_scan o = true ->
          history (final (run cfg o w)) = history w
          ∧ mapping (final (run cfg o w)) = mapping w)
  ∧ (- PY_SSIZE_T_MAX - 1 ≤ maxlen cfg < 0 ->
     (∀ line t w, scanline cfg line t w = Raise ValueError w)
     ∧ (∀ text t w, scantext cfg text t w = Raise ValueError w)).
Proof.
  intros Hbad. split.
  - intros o w Hscan.
    assert (history (final (run cfg o empty_world)) = []) as Hnone.
    { destruct (run_like cfg o empty_world Hscan) as (new & -> & Hnew).
      destruct new as [|m new]; [done|].
      apply Forall_cons in Hnew as [Hm _]. by apply no_diamond_like in Hm. }
    rewrite run_from_empty, final_map_result. unfold replay. simpl.
    rewrite Hnone. simpl. by rewrite app_nil_r.
  - intros [_ Hneg].
    assert (∀ line t w, scanline cfg line t w = Raise ValueError w) as Hline.
    { intros line t w. unfold scanline. by rewrite bool_decide_true. }
    split; [done|]. intros text t w.
    unfold scantext, scantext_with. cbv zeta.
    pose proof (split_on_nonempty LF text) as Hne.
    destruct (split_on LF text) as [|line lines]; [done|]. simpl.
    by rewrite Hline.
Qed.

Lemma unsatisfiable_bounds_record_nothing_witness :
  history (final (run {| chars := lit "a"; minlen := 0; maxlen := -1;
                         notify_diamonds := false |}
                    (OpScantext (lit "aaa") []) empty_world))
  = history empty_world
  ∧ scantext {| chars := lit "a"; minlen := 0; maxlen := -1;
                notify_diamonds := false |} [] [] empty_world
    = Raise ValueError empty_world.
Proof.
  destruct (unsatisfiable_bounds_record_nothing
              {| chars := lit "a"; minlen := 0; maxlen := -1;
                 notify_diamonds := false |}) as [Hnothing Hraises].
  { right. compute_done. }
  split.
  - apply Hnothing. reflexivity.
  - apply Hraises. compute_done.
Defined.

(** ** The extension filter *)

(** X20.  [check_extension] does not tell [include] from [exclude]: the
    result is the same when the two arguments are swapped.  A single string
    counts as the list of that string, two lists count as their
    concatenation given as either argument, and without both arguments every
    file is accepted. *)
Theorem check_extension_include_is_exclude file :
  (∀ include exclude,
     check_extension file include exclude = check_extension file exclude include)
  ∧ (∀ s other,
       check_extension file (FStr s) other = check_extension file (FList [s]) other)
  ∧ (∀ l l',
       check_extension file (FList l) (FList l')
       = check_extension file FNone (FList (l ++ l')))
  ∧ check_extension file FNone FNone = true.
Proof.
  unfold check_extension. cbv zeta. split; [|split; [|split]].
  - intros include exclude.
    destruct include as [|s|l], exclude as [|s'|l']; simpl; try done;
      repeat case_bool_decide; done.
  - done.
  - intros l l'. simpl. repeat case_bool_decide; try done.
    + exfalso. rewrite elem_of_app in *. tauto.
    + exfalso. rewrite elem_of_app in *. tauto.
    + exfalso. rewrite elem_of_app in *. tauto.
  - done.
Qed.

Lemma rfind_none c s : rfind c s = None -> c ∉ s.
Proof.
  induction s as [|x s IH]; simpl; [intros _; apply not_elem_of_nil|].
  destruct (rfind c s); [done|]. case_bool_decide; [done|]. intros _.
  apply not_elem_of_cons. split; [congruence | by apply IH].
Qed.

Lemma rfind_some c s i :
  rfind c s = Some i -> s !! i = Some c ∧ c ∉ drop (S i) s.
Proof.
  revert i. induction s as [|x s IH]; intros i; simpl; [done|].
  destruct (rfind c s) as [j|] eqn:Hj.
  - intros [= <-]. by apply IH.
  - case_bool_decide as Hx; [|done]. intros [= <-]. subst x.
    split; [done|]. simpl. rewrite drop_0. by apply rfind_none.
Qed.

Lemma last_forall {A} (P : A -> Prop) l d :
  P d -> Forall P l -> P (List.last l d).
Proof.
  intros Hd. induction 1 as [|x l Hx Hl IH]; simpl; [done|].
  by destruct l.
Qed.

Lemma filter_forall {A} (P : A -> Prop) (p : A -> bool) l :
  Forall P l -> Forall P (List.filter p l).
Proof.
  induction 1 as [|x l Hx Hl IH]; simpl; [done|].
  destruct (p x); [by constructor | done].
Qed.

Lemma path_name_no_slash file : SLASH ∉ path_name file.
Proof.
  unfold path_name.
  apply (last_forall (fun piece => SLASH ∉ piece)); [apply not_elem_of_nil|].
  apply filter_forall, split_on_pieces.
Qed.

Lemma check_extension_true file include exclude :
  check_extension file include exclude = true
  <-> ¬ listed (suffix file) include ∧ ¬ listed (suffix file) exclude.
Proof.
  unfold check_extension. cbv zeta.
  destruct include as [|s|l], exclude as [|s'|l']; simpl;
    repeat case_bool_decide; rewrite ?list_elem_of_singleton in *;
      split; try done; tauto.
Qed.

(** X21.  The extension that [check_extension] looks up is either empty or
    a dot followed by at least one character, none of them a dot or a slash,
    and it is the end of the file name, behind a non-empty stem.  So only
    entries of that form can reject a file: a filter that lists nothing but
    other strings (an extension without its dot, two extensions at once, a
    path) accepts every file. *)
Theorem only_extensions_can_be_filtered file :
  (suffix file = [] ∨ extension_shaped (suffix file))
  ∧ (∃ stem, path_name file = stem ++ suffix file
             ∧ (suffix file ≠ [] -> stem ≠ []))
  ∧ (∀ include exclude,
       (∀ e, listed e include ∨ listed e exclude ->
             e ≠ [] ∧ ¬ extension_shaped e) ->
       check_extension file include exclude = true).
Proof.
  assert ((suffix file = [] ∨ extension_shaped (suffix file))
          ∧ ∃ stem, path_name file = stem ++ suffix file
                    ∧ (suffix file ≠ [] -> stem ≠ [])) as [Hshape Hstem].
  { unfold suffix. cbv zeta.
    destruct (rfind DOT (path_name file)) as [i|] eqn:Hfind;
      [|split; [by left | exists (path_name file); by rewrite app_nil_r]].
    case_bool_decide as Hi;
      [|split; [by left | exists (path_name file); by rewrite app_nil_r]].
    destruct (rfind_some _ _ _ Hfind) as [Hdot Hrest].
    split.
    - right. exists (drop (S i) (path_name file)).
      split; [by apply drop_S|]. split; [|split; [done|]].
      + intros Hnil. apply (f_equal length) in Hnil.
        rewrite length_drop in Hnil. simpl in Hnil. lia.
      + intros Hin. apply (path_name_no_slash file).
        rewrite <- (take_drop (S i) (path_name file)).
        apply elem_of_app. by right.
    - exists (take i (path_name file)). split; [by rewrite take_drop|].
      intros _ Hnil. apply (f_equal length) in Hnil.
      rewrite length_take in Hnil. simpl in Hnil. lia. }
  split; [done|]. split; [done|].
  intros include exclude Hlisted. apply check_extension_true.
  assert (∀ f, listed (suffix file) f ->
               (listed (suffix file) include ∨ listed (suffix file) exclude) ->
               False) as Hno.
  { intros f _ Hor. destruct (Hlisted _ Hor) as [Hne Hnot].
    by destruct Hshape. }
  split; intros Hin; eapply Hno; eauto.
Qed.

Lemma only_extensions_can_be_filtered_witness :
  check_extension (lit "x.lock") FNone (FList [lit "lock"; lit ".tar.gz"]) = true.
Proof.
  destruct (only_extensions_can_be_filtered (lit "x.lock")) as (_ & _ & Haccept).
  apply Haccept. intros e [Hin|Hin]; simpl in Hin; [done|].
  apply elem_of_cons in Hin as [->|Hin].
  - split; [done|]. intros (rest & Heq & _). vm_compute in Heq. discriminate.
  - apply list_elem_of_singleton in Hin as ->.
    split; [done|]. intros (rest & Heq & _ & Hdot & _).
    vm_compute in Heq. injection Heq as <-. apply Hdot. compute_done.
Defined.

(** ** Printing *)

(** X22.  [add_diamond] prints exactly when [notify_diamonds] is set, and
    then once for every match, with its text and tag: in every world an
    engine can reach the printed lines are the recorded matches in order of
    recording when the flag is on (so the lines printed for a text are the
    tags its key holds), and nothing has been printed when it is off. *)
Theorem printed_lines_are_the_matches cfg w :
  reachable cfg w ->
  stdout w = (if notify_diamonds cfg then history w else [])
  ∧ (notify_diamonds cfg = true ->
     ∀ d, tags_of d (stdout w) = default [] (mapping w !! d))
  ∧ (notify_diamonds cfg = false -> stdout w = []).
Proof.
  intros Hreach. pose proof (stdout_is_history cfg w Hreach) as Hout.
  split; [done|]. split.
  - intros Hon d. rewrite Hout, Hon.
    symmetry. apply grouped_lookup. by apply (reachable_grouped cfg).
  - intros Hoff. by rewrite Hout, Hoff.
Qed.

Lemma printed_lines_are_the_matches_witness :
  stdout (final (run {| chars := lit "0123456789abcdef"; minlen := 24;
                        maxlen := 26; notify_diamonds := true |}
                   (OpScantext (lit "k=0123456789abcdef01234567") []) empty_world))
  = history (final (run {| chars := lit "0123456789abcdef"; minlen := 24;
                           maxlen := 26; notify_diamonds := true |}
                      (OpScantext (lit "k=0123456789abcdef01234567") [])
                      empty_world)).
Proof.
  apply (printed_lines_are_the_matches
           {| chars := lit "0123456789abcdef"; minlen := 24; maxlen := 26;
              notify_diamonds := true |}
           (final (run {| chars := lit "0123456789abcdef"; minlen := 24;
                          maxlen := 26; notify_diamonds := true |}
                     (OpScantext (lit "k=0123456789abcdef01234567") [])
                     empty_world))).
  apply reachable_step, reachable_init.
Defined.

(** ** Scanning a text, end to end *)

Lemma scanline_records cfg line t w :
  ascii (chars cfg) -> 0 ≤ maxlen cfg ->
  scanline cfg line t w = Ok (record_all cfg t (diamonds_of cfg line) w).
Proof.
  intros Hascii Hmax. unfold scanline. rewrite bool_decide_false by lia.
  destruct (loop_records_runs cfg t line [] (line_start cfg w) Hascii)
    as (st & -> & Hw).
  - split; simpl; [by rewrite length_replicate | lia].
  - by constructor.
  - done.
  - by rewrite take_nil.
  - simpl. by rewrite Hw.
Qed.

(** X23.  With an ASCII alphabet and [0 <= maxlen < PY_SSIZE_T_MAX] (a
    buffer length that [bytearray] accepts), [scantext] returns normally and
    records, line after line, what the specification of the
    line scanner yields for each piece of [text.split('\n')] terminated by a
    line feed, every match of the [k]-th piece under the caller's tag
    extended by [k].  When the line feed is not in the alphabet, these are
    the maximal runs of alphabet characters of each line, cut to [maxlen]
    characters, whose cut length is within the bounds, the run at the end of
    a line included. *)
Theorem scantext_records_diamonds_by_line cfg text t w :
  ascii (chars cfg) -> 0 ≤ maxlen cfg < PY_SSIZE_T_MAX ->
  scantext cfg text t w
  = Ok (foldl (fun w' '(k, line) =>
                 record_all cfg (t ++ [CInt k]) (diamonds_of cfg (line ++ [LF])) w')
          w (enumerate 1 (split_on LF text)))
  ∧ (LF ∉ chars cfg ->
     ∀ line, line ∈ split_on LF text ->
       ∃ runs last_run,
         terminated_runs cfg [] (line ++ [LF]) = runs ++ [last_run]
         ∧ alphabetic cfg last_run
         ∧ ∃ before, line = before ++ last_run ∧ run_boundary cfg before).
Proof.
  intros Hascii [Hmax _]. split.
  - unfold scantext, scantext_with. cbv zeta. generalize 1 as start. revert w.
    induction (split_on LF text) as [|line lines IH]; intros w start; simpl; [done|].
    rewrite (scanline_records cfg _ _ _ Hascii Hmax). apply IH.
  - intros Hlf line _.
    assert (∀ cur l, alphabetic cfg cur ->
              ∃ runs last_run,
                terminated_runs cfg cur (l ++ [LF]) = runs ++ [last_run]
                ∧ alphabetic cfg last_run
                ∧ ∃ before, cur ++ l = before ++ last_run
                            ∧ (before = [] ∨ run_boundary cfg before)) as Hruns.
    { intros cur l. revert cur. induction l as [|c l IH]; intros cur Hcur; simpl.
      - rewrite bool_decide_false by done.
        exists [], cur. split; [done|]. split; [done|].
        exists []. split; [by rewrite app_nil_r | by left].
      - case_bool_decide as Hc.
        + destruct (IH (cur ++ [c])) as (runs & last_run & Heq & Hlast & before
                                         & Hsplit & Hbefore).
          { apply Forall_app. split; [done | by constructor]. }
          exists runs, last_run. split; [done|]. split; [done|].
          exists before. by rewrite <- app_assoc in Hsplit.
        + destruct (IH []) as (runs & last_run & Heq & Hlast & before
                               & Hsplit & Hbefore); [by constructor|].
          exists (cur :: runs), last_run. rewrite Heq. split; [done|].
          split; [done|]. exists (cur ++ c :: before). simpl in Hsplit.
          split; [by rewrite Hsplit, <- app_assoc|].
          right. destruct Hbefore as [->|[->|(b' & x & -> & Hx)]].
          * right. by exists cur, c.
          * right. by exists cur, c.
          * right. exists (cur ++ c :: b'), x.
            split; [by rewrite <- app_assoc | done]. }
    destruct (Hruns [] line) as (runs & last_run & Heq & Hlast & before
                                 & Hsplit & Hbefore); [by constructor|].
    exists runs, last_run. split; [done|]. split; [done|].
    exists before. split; [done|]. destruct Hbefore as [->|?]; [by left | done].
Qed.

Lemma scantext_records_diamonds_by_line_witness :
  scantext hexcfg (lit "a=0123456789abcdef01234567" ++ [LF]
                   ++ lit "0123456789abcdef0123456789ab") [] empty_world
  = Ok (record_all hexcfg [CInt 2] [lit "0123456789abcdef0123456789"]
          (record_all hexcfg [CInt 1] [lit "0123456789abcdef01234567"]
             empty_world)).
Proof.
  assert (ascii (chars hexcfg)) as Hascii by (unfold ascii; compute_done).
  assert (0 ≤ maxlen hexcfg < PY_SSIZE_T_MAX) as Hmax by compute_done.
  destruct (scantext_records_diamonds_by_line hexcfg
              (lit "a=0123456789abcdef01234567" ++ [LF]
               ++ lit "0123456789abcdef0123456789ab") [] empty_world Hascii Hmax)
    as [Hscan _].
  rewrite Hscan. by vm_compute.
Defined.

(** ** The empty run *)

Lemma loop_empty_runs cfg t line st :
  minlen cfg ≤ 0 ≤ maxlen cfg -> Forall (fun c => c ∉ chars cfg) line ->
  index st = 0%nat ->
  ∃ st', for_each (scanline_body cfg t) line st = Ok st'
         ∧ world st' = record_all cfg t (replicate (length line) []) (world st).
Proof.
  intros Hbounds Hline. revert st.
  induction Hline as [|c line Hc _ IH]; intros st Hst; simpl; [by exists st|].
  rewrite (body_terminator _ _ _ _ Hc), Hst.
  rewrite bool_decide_true by (simpl; lia). rewrite take_0. simpl.
  match goal with |- context [for_each _ line ?s] =>
    destruct (IH s eq_refl) as (st' & -> & Hw) end.
  by exists st'.
Qed.

(** X24.  With [minlen <= 0 <= maxlen < PY_SSIZE_T_MAX] (a buffer length
    that [bytearray] accepts) the empty run counts: every
    character outside the alphabet that no run precedes records the empty
    text.  A line of [n] such characters records the empty text [n] times
    under its tag, so the key of the empty text gains [n] copies of the
    tag. *)
Theorem scanline_records_empty_runs cfg line t w :
  minlen cfg ≤ 0 ≤ maxlen cfg -> maxlen cfg < PY_SSIZE_T_MAX ->
  Forall (fun c => c ∉ chars cfg) line ->
  scanline cfg line t w = Ok (record_all cfg t (replicate (length line) []) w)
  ∧ default [] (mapping (record_all cfg t (replicate (length line) []) w) !! [])
    = default [] (mapping w !! []) ++ replicate (length line) t.
Proof.
  intros Hbounds _ Hline. split.
  - unfold scanline. rewrite bool_decide_false by lia.
    destruct (loop_empty_runs cfg t line (line_start cfg w) Hbounds Hline eq_refl)
      as (st & -> & Hw).
    simpl. by rewrite Hw.
  - clear Hline. generalize (length line) as n. intros n. revert w.
    induction n as [|n IH]; intros w; [simpl; by rewrite app_nil_r|].
    change (record_all cfg t (replicate (S n) []) w)
      with (record_all cfg t (replicate n []) (add_diamond cfg [] t w)).
    rewrite IH. unfold add_diamond. simpl.
    rewrite lookup_insert_eq. simpl. by rewrite <- app_assoc.
Qed.

Lemma scanline_records_empty_runs_witness :
  scanline {| chars := lit "a"; minlen := 0; maxlen := 3; notify_diamonds := false |}
    (lit "x y") [CInt 1] empty_world
  = Ok (record_all {| chars := lit "a"; minlen := 0; maxlen := 3;
                      notify_diamonds := false |} [CInt 1]
          (replicate (length (lit "x y")) []) empty_world).
Proof.
  apply (scanline_records_empty_runs
           {| chars := lit "a"; minlen := 0; maxlen := 3; notify_diamonds := false |}
           (lit "x y") [CInt 1] empty_world).
  - compute_done.
  - compute_done.
  - compute_done.
Defined.
